(** * Verification of the continuum-process plasma properties of TARDIS

    Shallow embedding of the parts of
    [tardis/plasma/properties/continuum_processes.py],
    [tardis/plasma/properties/continuum.py] and
    [tardis/plasma/properties/atomic.py] that the specification talks
    about.  Floating-point numbers are modelled by exact rationals [Q];
    pandas tables are modelled by lists of rows (one row per index entry,
    one column per shell), NaN by [None] where the code relies on it. *)

From Stdlib Require Import String.
From Stdlib Require Import List Bool Arith Lia QArith.
From Stdlib Require Import Sorting.Sorted.
Import ListNotations.

(** ** Generic list helpers *)

(** Assignment [l[n] = v] of a Python list / numpy row. *)
Fixpoint upd {A} (l : list A) (n : nat) (v : A) : list A :=
  match l, n with
  | [], _ => []
  | _ :: t, O => v :: t
  | h :: t, S n' => h :: upd t n' v
  end.

(** Python slicing [l[start:stop]] for non-negative bounds. *)
Definition slice {A} (l : list A) (start stop : nat) : list A :=
  firstn (stop - start) (skipn start l).

(** ** Block integrator ([integrate_array_by_blocks]) *)
Module Integrate.

Local Open Scope Q_scope.

(** [np.trapz(y, x)]: [sum (x[i+1] - x[i]) * (y[i] + y[i+1]) / 2]. *)
Fixpoint trapz (y x : list Q) : Q :=
  match y, x with
  | y0 :: ((y1 :: _) as y'), x0 :: ((x1 :: _) as x') =>
      (x1 - x0) * (y0 + y1) / 2 + trapz y' x'
  | _, _ => 0
  end.

(** A two-dimensional numpy array: [shape1] columns, one list per row. *)
Record array2 := mk_array2 { shape1 : nat; rows : list (list Q) }.

(** [f[:, i]] *)
Definition column (f : array2) (i : nat) : list Q :=
  map (fun row => nth i row 0) (rows f).

(** [np.zeros((b, c))] *)
Definition zeros (b c : nat) : list (list Q) := repeat (repeat 0 c) b.

(** [integrated[j, i] = v] *)
Definition set2 (m : list (list Q)) (j i : nat) (v : Q) : list (list Q) :=
  upd m j (upd (nth j m []) i v).

(** Body of the inner loop: the trapezoidal integral of block [j], column [i]. *)
Definition block_integral (f : array2) (x : list Q) (block_references : list nat)
    (j i : nat) : Q :=
  let start := nth j block_references O in
  let stop := nth (S j) block_references O in
  trapz (slice (column f i) start stop) (slice x start stop).

Definition integrate_array_by_blocks (f : array2) (x : list Q)
    (block_references : list nat) : list (list Q) :=
  let integrated := zeros (length block_references - 1) (shape1 f) in
  fold_left
    (fun integrated i =>
       fold_left
         (fun integrated j =>
            set2 integrated j i (block_integral f x block_references j i))
         (seq 0 (length integrated)) integrated)
    (seq 0 (shape1 f)) integrated.

End Integrate.

(** ** Multi-indices, tables and errors *)
Module Index.

(** One entry of a pandas [MultiIndex]: the tuple of its level values,
    e.g. [[atomic_number; ion_number; level_number]]. *)
Definition key := list nat.

Fixpoint key_eqb (k1 k2 : key) : bool :=
  match k1, k2 with
  | [], [] => true
  | a :: k1', b :: k2' => Nat.eqb a b && key_eqb k1' k2'
  | _, _ => false
  end.

(** [multi_index.get_level_values(i)] *)
Definition get_level_values (idx : list key) (i : nat) : list nat :=
  map (fun k => nth i k O) idx.

(** [pd.MultiIndex.from_arrays([a, b])] and its three-array version. *)
Definition from_arrays2 (a b : list nat) : list key :=
  map (fun p => [fst p; snd p]) (combine a b).

Definition from_arrays3 (a b c : list nat) : list key :=
  map (fun p => [fst p; fst (snd p); snd (snd p)]) (combine a (combine b c)).

(** [get_ion_multi_index(multi_index_full, next_higher=True)] *)
Definition get_ion_multi_index (multi_index_full : list key) (next_higher : bool)
    : list key :=
  let atomic_number := get_level_values multi_index_full 0 in
  let ion_number := get_level_values multi_index_full 1 in
  let ion_number := if next_higher then map S ion_number else ion_number in
  from_arrays2 atomic_number ion_number.

(** [get_ground_state_multi_index(multi_index_full)] *)
Definition get_ground_state_multi_index (multi_index_full : list key) : list key :=
  let atomic_number := get_level_values multi_index_full 0 in
  let ion_number := map S (get_level_values multi_index_full 1) in
  let level_number := map (fun _ => O) ion_number in
  from_arrays3 atomic_number ion_number level_number.

End Index.

Module Frame.
Import Index.

(** Exceptions raised by the code. *)
Inductive exn := KeyError | PlasmaException | ValueError.

(** A small error monad: a computation returns a value or raises. *)
Inductive res (A : Type) := Ok (a : A) | Err (e : exn).
Arguments Ok {A} a.
Arguments Err {A} e.

Definition bind {A B} (m : res A) (f : A -> res B) : res B :=
  match m with Ok a => f a | Err e => Err e end.

Notation "x <- m ;; k" := (bind m (fun x => k))
  (at level 61, m at next level, right associativity).

(** A pandas DataFrame with a (multi-)index: one list of values per row,
    one value per column (shell). *)
Record frame := mk_frame { index : list key; values : list (list Q) }.

Fixpoint find_row (idx : list key) (rows : list (list Q)) (k : key) : option (list Q) :=
  match idx, rows with
  | k' :: idx', r :: rows' => if key_eqb k k' then Some r else find_row idx' rows' k
  | _, _ => None
  end.

(** [df.loc[keys].values] for a uniquely indexed [df]: the rows of the
    requested keys in the requested order; a missing key raises [KeyError]. *)
Fixpoint loc_rows (df : frame) (ks : list key) : res (list (list Q)) :=
  match ks with
  | [] => Ok []
  | k :: ks' =>
      match find_row (index df) (values df) k with
      | Some r => rest <- loc_rows df ks' ;; Ok (r :: rest)
      | None => Err KeyError
      end
  end.

(** Element-wise binary operation on equally shaped arrays. *)
Definition map2 {A B C} (f : A -> B -> C) (a : list A) (b : list B) : list C :=
  map (fun p => f (fst p) (snd p)) (combine a b).

Definition Qltb (x y : Q) : bool := negb (Qle_bool y x).

End Frame.

(** ** [atomic.PhotoIonizationData] *)
Module PhotoIonization.
Import Index Frame.
Local Open Scope Q_scope.

(** Lexicographic order of index tuples, the order in which
    [groupby(level=[0, 1, 2])] lists its groups. *)
Fixpoint key_ltb (k1 k2 : key) : bool :=
  match k1, k2 with
  | [], [] => false
  | [], _ :: _ => true
  | _ :: _, [] => false
  | a :: k1', b :: k2' => Nat.ltb a b || (Nat.eqb a b && key_ltb k1' k2')
  end.

(** Insertion of a group key into the sorted list of distinct keys. *)
Fixpoint insert_key (k : key) (l : list key) : list key :=
  match l with
  | [] => [k]
  | h :: t =>
      if key_ltb k h then k :: h :: t
      else if key_eqb k h then h :: t
      else h :: insert_key k t
  end.

(** The keys of [groupby(level=[0, 1, 2])] (sorted, [sort=True]). *)
Definition group_keys (ks : list key) : list key :=
  fold_left (fun acc k => insert_key k acc) ks [].

(** Number of rows of a group ([groupby(...).count()] on a column without NaN). *)
Definition group_count (ks : list key) (g : key) : nat :=
  length (filter (key_eqb g) ks).

(** [np.cumsum] started from [acc]. *)
Fixpoint cumsum_from (acc : nat) (l : list nat) : list nat :=
  match l with
  | [] => []
  | x :: t => (acc + x)%nat :: cumsum_from (acc + x) t
  end.

(** [Index.unique()]: distinct keys in order of first appearance. *)
Definition unique (ks : list key) : list key :=
  fold_left (fun acc k => if existsb (key_eqb k) acc then acc else acc ++ [k]) ks [].

(** [series.loc[k]] on a uniquely indexed Series. *)
Definition lookup {A} (t : list (key * A)) (k : key) : option A :=
  option_map snd (find (fun p => key_eqb k (fst p)) t).

(** [series.loc[keys]]: a missing key raises [KeyError]. *)
Fixpoint loc_assoc {A} (t : list (key * A)) (ks : list key) : res (list A) :=
  match ks with
  | [] => Ok []
  | k :: ks' =>
      match lookup t k with
      | Some v => rest <- loc_assoc t ks' ;; Ok (v :: rest)
      | None => Err KeyError
      end
  end.

(** The parts of [atomic_data] read by [PhotoIonizationData]. *)
Record atomic_data := mk_atomic_data {
  (** rows [(atomic_number, ion_number, level_number), (nu, x_sect)] *)
  photoionization_data : list (key * (Q * Q));
  (** [levels.energy] *)
  levels_energy : list (key * Q);
  (** [macro_atom_references.references_idx] *)
  macro_atom_references : list (key * nat)
}.

Record outputs := mk_outputs {
  photo_ion_cross_sections : list (key * (Q * Q));
  photo_ion_block_references : list nat;
  photo_ion_index : list key;
  nu_i : list (key * Q);
  energy_i : list Q;
  (** rows [level key, (source_level_idx, destination_level_idx)] *)
  photo_ion_idx : list (key * (nat * nat))
}.

(** [PhotoIonizationData.calculate(atomic_data, continuum_interaction_species)] *)
Definition calculate (ad : atomic_data) (continuum_interaction_species : list key)
    : res outputs :=
  let data := photoionization_data ad in
  let mask_selected_species (row : key * (Q * Q)) :=
    existsb (key_eqb (firstn 2 (fst row))) continuum_interaction_species in
  let data := filter mask_selected_species data in
  let idx := map fst data in
  let groups := group_keys idx in
  let block_references := 0%nat :: cumsum_from 0 (map (group_count idx) groups) in
  let photo_ion_index := unique idx in
  let nu_i := map (fun g => (g, match find (fun p => key_eqb g (fst p)) data with
                                | Some p => fst (snd p)
                                | None => 0
                                end)) groups in
  energy_i <- loc_assoc (levels_energy ad) photo_ion_index ;;
  source_idx <- loc_assoc (macro_atom_references ad) photo_ion_index ;;
  destination_idx <- loc_assoc (macro_atom_references ad)
                       (get_ground_state_multi_index photo_ion_index) ;;
  let photo_ion_idx := combine photo_ion_index (combine source_idx destination_idx) in
  Ok (mk_outputs data block_references photo_ion_index nu_i energy_i photo_ion_idx).

(** Hydrogen data with two levels, sorted by level key as in the atomic
    data files: the ground level has the highest threshold frequency. *)
Definition hydrogen_data : atomic_data :=
  mk_atomic_data
    [([1; 0; 0]%nat, (329, 63)); ([1; 0; 0]%nat, (400, 40)); ([1; 0; 1]%nat, (82, 130))]
    [([1; 0; 0]%nat, 0); ([1; 0; 1]%nat, 10)]
    [([1; 0; 0], 0); ([1; 0; 1], 1); ([1; 1; 0], 2)]%nat.

End PhotoIonization.

(** ** [continuum_processes.IndexSetterMixin.set_index] *)
Module IndexSetter.
Import Index Frame PhotoIonization.

(** A transition MultiIndex: level names and one tuple per row. *)
Record transition_frame := mk_transition_frame {
  index_names : list String.string;
  index_tuples : list (list Z);
  tvalues : list (list Q)
}.

(** [pd.MultiIndex.from_arrays(arrays)] for named arrays of equal length. *)
Definition from_arrays (arrays : list (String.string * list Z))
    : list String.string * list (list Z) :=
  let cols := map snd arrays in
  (map fst arrays,
   map (fun i => map (fun c => nth i c 0%Z) cols) (seq 0 (length (hd [] cols)))).

(** [IndexSetterMixin.set_index(p, photo_ion_idx, transition_type, reverse)];
    [photo_ion_idx] maps a level (or transition) key to its
    [(source_level_idx, destination_level_idx)]. *)
Definition set_index (p : frame) (photo_ion_idx : list (key * (Z * Z)))
    (transition_type : Z) (reverse : bool) : res transition_frame :=
  idx <- loc_assoc photo_ion_idx (index p) ;;
  let transition_type := map (fun _ => transition_type) idx in
  let idx_arrays := [("source_level_idx"%string, map fst idx);
                     ("destination_level_idx"%string, map snd idx)] in
  let idx_arrays := if reverse then rev idx_arrays else idx_arrays in
  let idx_arrays := idx_arrays ++ [("transition_type"%string, transition_type)] in
  let '(names, tuples) := from_arrays idx_arrays in
  let names := if reverse then rev (removelast names) ++ [last names "transition_type"%string]
               else names in
  Ok (mk_transition_frame names tuples (values p)).

End IndexSetter.

(** ** [atomic.YgData]: merge of tabulated and approximate collision strengths *)
Module Yg.
Import Index Frame PhotoIonization.

(** A collision-strength table: one row per transition key
    [(atomic_number, ion_number, level_number_lower, level_number_upper)],
    one entry per temperature column [t_yg]; [None] is NaN.  Both tables
    of [YgData.calculate] carry the columns [t_yg]. *)
Definition table := list (key * list (option Q)).

(** [Index.equals] on tuple indices. *)
Fixpoint keys_eqb (a b : list key) : bool :=
  match a, b with
  | [], [] => true
  | k :: a', k' :: b' => key_eqb k k' && keys_eqb a' b'
  | _, _ => false
  end.

(** [Index.union]: [self] if [other] is empty or equal, [other] if [self]
    is empty, otherwise the sorted union of the distinct keys. *)
Definition index_union (a b : list key) : list key :=
  match b with
  | [] => a
  | _ =>
      if keys_eqb a b then a
      else match a with
           | [] => b
           | _ => group_keys (a ++ b)
           end
  end.

(** Row of a table after [reindex] to a key: missing keys give NaN. *)
Definition get_row (t : table) (ncols : nat) (k : key) : list (option Q) :=
  match lookup t k with Some r => r | None => repeat None ncols end.

(** The combiner of [combine_first]: [expressions.where(isna(x), y, x)]. *)
Definition fill (x y : option Q) : option Q :=
  match x with Some v => Some v | None => y end.

(** [self.combine_first(other)] ([DataFrame.combine] with
    [overwrite=False]): an empty operand returns the other one; otherwise
    both are aligned on the union of their indices and combined entry by
    entry. *)
Definition combine_first (self other : table) (ncols : nat) : table :=
  match other with
  | [] => self
  | _ =>
      match self with
      | [] => other
      | _ =>
          map (fun k => (k, map (fun '(x, y) => fill x y)
                                (combine (get_row self ncols k) (get_row other ncols k))))
              (index_union (map fst self) (map fst other))
      end
  end.

(** A table with a unique index and [ncols] entries per row. *)
Fixpoint keys_nodupb (ks : list key) : bool :=
  match ks with
  | [] => true
  | k :: t => negb (existsb (key_eqb k) t) && keys_nodupb t
  end.

Definition well_formed (t : table) (ncols : nat) : bool :=
  keys_nodupb (map fst t) && forallb (fun r => Nat.eqb (length (snd r)) ncols) t.

End Yg.

(** ** Floating-point values *)
Module Flt.
Import Frame.
Local Open Scope Q_scope.

(** The double values the computation can produce: finite values (exact
    rationals, as elsewhere in this development), the two infinities and
    NaN.  Signed zeros are not distinguished: the densities divided by are
    non-negative, so their zeros are [+0]. *)
Inductive float := Fin (q : Q) | PInf | NInf | NaN.

(** The infinity of a sign, NaN for sign zero. *)
Definition inf_of (c : comparison) : float :=
  match c with Gt => PInf | Lt => NInf | Eq => NaN end.

(** IEEE division [x / y] (a zero divisor is [+0]). *)
Definition fdiv (x y : float) : float :=
  match x, y with
  | NaN, _ | _, NaN => NaN
  | Fin a, Fin b =>
      match Qcompare b 0 with Eq => inf_of (Qcompare a 0) | _ => Fin (a / b) end
  | Fin _, PInf | Fin _, NInf => Fin 0
  | PInf, Fin b => match Qcompare b 0 with Lt => NInf | _ => PInf end
  | NInf, Fin b => match Qcompare b 0 with Lt => PInf | _ => NInf end
  | _, _ => NaN
  end.

(** IEEE subtraction [x - y]. *)
Definition fsub (x y : float) : float :=
  match x, y with
  | NaN, _ | _, NaN => NaN
  | Fin a, Fin b => Fin (a - b)
  | Fin _, PInf => NInf
  | Fin _, NInf => PInf
  | PInf, PInf | NInf, NInf => NaN
  | PInf, _ => PInf
  | NInf, _ => NInf
  end.

(** IEEE multiplication [x * y]. *)
Definition fmul (x y : float) : float :=
  match x, y with
  | NaN, _ | _, NaN => NaN
  | Fin a, Fin b => Fin (a * b)
  | Fin a, PInf | PInf, Fin a => inf_of (Qcompare a 0)
  | Fin a, NInf | NInf, Fin a => inf_of (CompOpp (Qcompare a 0))
  | PInf, PInf | NInf, NInf => PInf
  | PInf, NInf | NInf, PInf => NInf
  end.

(** [x ** -1] (a zero [x] is [+0]). *)
Definition pow_m1 (x : Q) : float :=
  match Qcompare x 0 with Eq => PInf | _ => Fin (/ x) end.

(** [x < 0]; false for NaN. *)
Definition fltb0 (x : float) : bool :=
  match x with Fin a => Qltb a 0 | NInf => true | _ => false end.

End Flt.

(** ** [continuum_processes.CorrPhotoIonRateCoeff] *)
Module CorrPhotoIon.
Import Index Frame PhotoIonization Yg Flt.
Local Open Scope Q_scope.

(** A DataFrame of doubles. *)
Record fframe := mk_fframe { findex : list key; fvalues : list (list float) }.

Fixpoint find_frow (idx : list key) (rows : list (list float)) (k : key)
    : option (list float) :=
  match idx, rows with
  | k' :: idx', r :: rows' => if key_eqb k k' then Some r else find_frow idx' rows' k
  | _, _ => None
  end.

(** [(df < 0).sum().sum()] *)
Definition num_neg_elements (m : list (list float)) : nat :=
  list_sum (map (fun row => length (filter fltb0 row)) m).

(** [gamma - x] for two DataFrames with the same shell columns and unique
    indices: when the indices are equal the rows are matched by position;
    otherwise both are reindexed to the union (outer join) of the indices
    and a row present on one side only gives NaN. *)
Definition sub_aligned (gamma : frame) (x : fframe) : fframe :=
  let g := mk_fframe (index gamma) (map (map Fin) (values gamma)) in
  if keys_eqb (findex g) (findex x) then
    mk_fframe (findex g) (map2 (map2 fsub) (fvalues g) (fvalues x))
  else
    let u := index_union (findex g) (findex x) in
    mk_fframe u
      (map (fun k =>
              match find_frow (findex g) (fvalues g) k, find_frow (findex x) (fvalues x) k with
              | Some a, Some b => map2 fsub a b
              | Some a, None => map (fun _ => NaN) a
              | None, Some b => map (fun _ => NaN) b
              | None, None => []
              end) u).

(** [CorrPhotoIonRateCoeff.calculate(gamma, alpha_stim, electron_densities,
    ion_number_density, level_number_density)].  The densities are
    looked up with [.loc[...].values] and combined with [alpha_stim] by
    position; [electron_densities] is a per-shell Series broadcast along
    the columns; the quotient keeps [alpha_stim]'s index and is subtracted
    from [gamma] with pandas alignment. *)
Definition calculate (gamma alpha_stim : frame) (electron_densities : list Q)
    (ion_number_density level_number_density : frame) : res fframe :=
  let n_k_index := get_ion_multi_index (index alpha_stim) true in
  n_k <- loc_rows ion_number_density n_k_index ;;
  n_i <- loc_rows level_number_density (index alpha_stim) ;;
  let t1 := map2 (map2 Qmult) (values alpha_stim) n_k in
  let t2 := map (fun row => map2 Qmult row electron_densities) t1 in
  let t3 := mk_fframe (index alpha_stim)
              (map2 (map2 (fun a b => fdiv (Fin a) (Fin b))) t2 n_i) in
  let gamma_corr := sub_aligned gamma t3 in
  let num_neg := num_neg_elements (fvalues gamma_corr) in
  if Nat.eqb num_neg 0 then Ok gamma_corr else Err PlasmaException.

End CorrPhotoIon.


(** ** [continuum_processes.PhotoIonRateCoeff] and
    [continuum_processes.PhotoIonEstimatorsNormFactor] *)
Module PhotoIonRate.
Import Index Frame Integrate Flt CorrPhotoIon.
Local Open Scope Q_scope.

(** [const.h.cgs.value] (erg s) and [np.pi]. *)
Definition h_cgs : Q := 662607015 # 100000000000000000000000000000000000.
Definition pi : Q := 3141592653589793 # 1000000000000000.

(** [PhotoIonEstimatorsNormFactor.calculate(time_simulation, volume)]:
    [(time_simulation * volume * h)**-1], one factor per shell; a zero
    product gives [inf]. *)
Definition norm_factor (time_simulation : Q) (volume : list Q) : list float :=
  map (fun v => pow_m1 (time_simulation * v * h_cgs)) volume.

(** [PhotoIonRateCoeff.calculate_from_dilute_bb].  [j_blues] stands for
    [JBluesDiluteBlackBody.calculate(photo_ion_cross_sections, nu, t_rad, w)]
    (not part of these sources), a table with one row per cross-section
    sample and one column per shell, i.e. per entry of [t_rad].  The
    frequencies divided by are taken as they come: a zero frequency is not
    modelled as a double division.  [np.zeros((len(block_references) - 1, n))]
    raises [ValueError] for an empty [block_references], and
    [pd.DataFrame(gamma, index=photo_ion_index)] raises [ValueError] when
    the number of blocks differs from the length of the index. *)
Definition calculate_from_dilute_bb
    (j_blues : list (key * (Q * Q)) -> list Q -> list Q -> list Q -> list (list Q))
    (photo_ion_cross_sections : list (key * (Q * Q)))
    (photo_ion_block_references : list nat) (photo_ion_index : list key)
    (t_rad w : list Q) : res fframe :=
  let nu := map (fun r => fst (snd r)) photo_ion_cross_sections in
  let x_sect := map (fun r => snd (snd r)) photo_ion_cross_sections in
  let j_nus := j_blues photo_ion_cross_sections nu t_rad w in
  let factor := map2 (fun x n => 4 * pi * x / n / h_cgs) x_sect nu in
  let gamma := map2 (fun row f => map (fun v => v * f) row) j_nus factor in
  if Nat.eqb (length photo_ion_block_references) 0 then Err ValueError
  else
    let gamma := integrate_array_by_blocks (mk_array2 (length t_rad) gamma) nu
                   photo_ion_block_references in
    if Nat.eqb (length gamma) (length photo_ion_index)
    then Ok (mk_fframe photo_ion_index (map (map Fin) gamma))
    else Err ValueError.

(** [gamma_estimator * photo_ion_norm_factor]: the one-dimensional factor
    array is broadcast along the columns, so shell (column) [j] of the
    estimator is multiplied by the [j]-th factor and the estimator's index
    is kept; a factor array of another length than the rows raises
    [ValueError]. *)
Definition scale_estimator (est : frame) (photo_ion_norm_factor : list float) : res fframe :=
  if forallb (fun row => Nat.eqb (length row) (length photo_ion_norm_factor)) (values est)
  then Ok (mk_fframe (index est)
             (map (fun row => map2 fmul (map Fin row) photo_ion_norm_factor) (values est)))
  else Err ValueError.

(** [PhotoIonRateCoeff.calculate]. *)
Definition calculate
    (j_blues : list (key * (Q * Q)) -> list Q -> list Q -> list Q -> list (list Q))
    (photo_ion_cross_sections : list (key * (Q * Q))) (gamma_estimator : option frame)
    (photo_ion_norm_factor : list float) (photo_ion_block_references : list nat)
    (photo_ion_index : list key) (t_rad w : list Q) : res fframe :=
  match gamma_estimator with
  | None =>
      calculate_from_dilute_bb j_blues photo_ion_cross_sections
        photo_ion_block_references photo_ion_index t_rad w
  | Some est => scale_estimator est photo_ion_norm_factor
  end.

End PhotoIonRate.

(** ** [continuum.PhotoIonRateCoeff] (the class of the continuum property
    collection) *)
Module PhotoIonRateCont.
Import Index Frame.

(** [get_estimator_index(photo_ion_index_sorted)] *)
Definition get_estimator_index (photo_ion_index_sorted : list key) : list key :=
  photo_ion_index_sorted.

(** [calculate_rate_coefficient_from_estimator(estimator, photo_ion_index_sorted)]:
    the estimator array, one row per level, under the sorted index. *)
Definition calculate_rate_coefficient_from_estimator (estimator : list (list Q))
    (photo_ion_index_sorted : list key) : frame :=
  mk_frame (get_estimator_index photo_ion_index_sorted) estimator.

(** [PhotoIonRateCoeff.calculate(photo_ion_estimator, photo_ion_index_sorted)];
    [None] is Python's [None]. *)
Definition calculate (photo_ion_estimator : option (list (list Q)))
    (photo_ion_index_sorted : list key) : option frame :=
  match photo_ion_estimator with
  | Some est => Some (calculate_rate_coefficient_from_estimator est photo_ion_index_sorted)
  | None => None
  end.

End PhotoIonRateCont.

(** ** [atomic.ZetaData._filter_atomic_property] *)
Module Zeta.
Import Index.
Local Open Scope Q_scope.

(** The zeta table as pandas stores it: the level values of its
    [(atomic_number, ion_number)] MultiIndex, the integer codes ([labels])
    of each row into those levels, and one row of values per temperature. *)
Record zeta_table := mk_zeta_table {
  atom_levels : list nat;
  ion_levels : list nat;
  labels : list (nat * nat);
  zvalues : list (list Q)
}.

(** The index entry of a row with codes [c]. *)
Definition index_key (t : zeta_table) (c : nat * nat) : key :=
  [nth (fst c) (atom_levels t) O; nth (snd c) (ion_levels t) O].

(** A row after [zeta_data['atomic_number'] = labels[0] + 1] and
    [zeta_data['ion_number'] = labels[1] + 1]. *)
Record zrow := mk_zrow { rkey : key; atomic_number : nat; ion_number : nat; vals : list Q }.

Definition rows_of (t : zeta_table) : list zrow :=
  map (fun p => mk_zrow (index_key t (fst p)) (S (fst (fst p))) (S (snd (fst p))) (snd p))
      (combine (labels t) (zvalues t)).

(** The keys and counts of [counter(zeta_data.atomic_number.values)]. *)
Definition counter_keys (l : list nat) : list nat :=
  fold_left (fun acc a => if existsb (Nat.eqb a) acc then acc else acc ++ [a]) l [].

Definition count (l : list nat) (a : nat) : nat := length (filter (Nat.eqb a) l).

(** [np.alltrue(keys + 1 == values)] *)
Definition complete (ans : list nat) : bool :=
  forallb (fun k => Nat.eqb (S k) (count ans k)) (counter_keys ans).

Inductive zeta_exn := ZKeyError | ZValueError.

(** A result, or the exception raised; the returned table lists, per row,
    its index entry and its values followed by the [atomic_number] and
    [ion_number] columns; [log] holds the missing ions of each warning. *)
Inductive outcome (A : Type) := Returned (a : A) | Raised (e : zeta_exn).
Arguments Returned {A} a.
Arguments Raised {A} e.

Record zeta_result := mk_zeta_result { table : list (key * list Q); log : list (list (nat * nat)) }.

(** The row of [zeta_data.loc[a, i]]. *)
Definition loc_row (rows : list zrow) (k : key) : option zrow :=
  find (fun r => key_eqb k (rkey r)) rows.

(** [updated_dataframe.loc[a, i] = row]; a new key enlarges the table. *)
Definition set_row (u : list (key * list (option Q))) (k : key) (v : list (option Q))
    : list (key * list (option Q)) :=
  if existsb (fun p => key_eqb k (fst p)) u
  then map (fun p => if key_eqb k (fst p) then (fst p, v) else p) u
  else u ++ [(k, v)].

Definition row_values (r : zrow) : list Q :=
  vals r ++ [inject_Z (Z.of_nat (atomic_number r)); inject_Z (Z.of_nat (ion_number r))].

(** The fallback branch: the table over all ions of the selected atoms,
    rows copied from the data, NaN replaced by 1.0. *)
Definition fill_missing (rows : list zrow) (selected_atoms : list nat) (ncols : nat)
    : outcome zeta_result :=
  let missing_ions :=
    flat_map (fun atom =>
                filter (fun p => negb (existsb (key_eqb [fst p; snd p]) (map rkey rows)))
                       (map (fun ion => (atom, ion)) (seq 1 (S atom))))
             selected_atoms in
  let updated_index :=
    flat_map (fun atom => map (fun ion => [atom; ion]) (seq 1 (S atom))) selected_atoms in
  let updated := map (fun k => (k, repeat (@None Q) ncols)) updated_index in
  let copied :=
    fold_left
      (fun acc r =>
         match acc with
         | Raised e => Raised e
         | Returned u =>
             let k := [atomic_number r; ion_number r] in
             match loc_row rows k with
             | Some src => Returned (set_row u k (map Some (row_values src)))
             | None => Raised ZKeyError
             end
         end)
      rows (Returned updated) in
  match copied with
  | Raised e => Raised e
  | Returned u =>
      if Nat.eqb (length u) (length updated_index) then
        let u := map (fun p =>
                        (fst p, firstn (ncols - 2) (snd p) ++
                                [Some (inject_Z (Z.of_nat (nth 0 (fst p) O)));
                                 Some (inject_Z (Z.of_nat (nth 1 (fst p) O)))])) u in
        let u := map (fun p => (fst p, map (fun v => match v with Some x => x | None => 1 end)
                                           (snd p))) u in
        Returned (mk_zeta_result u [missing_ions])
      else Raised ZValueError
  end.

(** [ZetaData._filter_atomic_property(zeta_data, selected_atoms)]. *)
Definition filter_atomic_property (zeta_data : zeta_table) (selected_atoms : list nat)
    : outcome zeta_result :=
  let rows := rows_of zeta_data in
  let rows := filter (fun r => existsb (Nat.eqb (atomic_number r)) selected_atoms) rows in
  if complete (map atomic_number rows) then
    Returned (mk_zeta_result (map (fun r => (rkey r, row_values r)) rows) [])
  else
    fill_missing rows selected_atoms (length (hd [] (zvalues zeta_data)) + 2).

End Zeta.

(** ** Evaluation of a property node, and [atomic.AtomicMass] *)

(** Modelled from the spec: the property-graph engine is not part of these
    sources.  Its description: on a request for an output, the owning node's
    compute function is invoked unless the node's declared inputs are
    unchanged since its last evaluation, and each output is then cached
    under its name, i.e. stored as the node's attribute. *)
Module Graph.

Record node (I O : Type) := mk_node {
  attr : option O;          (** the cached output, [getattr(self, outputs[0])] *)
  last_inputs : option I;   (** the inputs of the last evaluation *)
  calls : nat               (** call-count probe on the compute function *)
}.
Arguments mk_node {I O} attr last_inputs calls.
Arguments attr {I O} n.
Arguments last_inputs {I O} n.
Arguments calls {I O} n.

(** A request for the node's output with the current input values [inp];
    [calculate] sees the node's attribute and the inputs, and [None] is a
    raised exception, which leaves the node as it was. *)
Definition request {I O} (eqb : I -> I -> bool) (calculate : option O -> I -> option O)
    (n : node I O) (inp : I) : option O * node I O :=
  let recompute :=
    match calculate (attr n) inp with
    | Some o => (Some o, mk_node (Some o) (Some inp) (S (calls n)))
    | None => (None, mk_node (attr n) (last_inputs n) (S (calls n)))
    end in
  match last_inputs n, attr n with
  | Some li, Some o => if eqb li inp then (Some o, n) else recompute
  | _, _ => recompute
  end.

End Graph.

Module AtomicMass.
Import Index Flt.

(** [atomic_data.atom_data]: mass per atomic number. *)
Definition atom_data := list (nat * Q).

(** The inputs [(atomic_data, selected_atoms)] of [AtomicMass.calculate]. *)
Definition inputs := (atom_data * list nat)%type.

Definition inputs_eqb (a b : inputs) : bool :=
  let eq_atoms := fix go (x y : atom_data) : bool :=
    match x, y with
    | [], [] => true
    | (z, m) :: x', (z', m') :: y' => Nat.eqb z z' && Qeq_bool m m' && go x' y'
    | _, _ => false
    end in
  let eq_sel := fix go (x y : list nat) : bool :=
    match x, y with
    | [], [] => true
    | z :: x', z' :: y' => Nat.eqb z z' && go x' y'
    | _, _ => false
    end in
  eq_atoms (fst a) (fst b) && eq_sel (snd a) (snd b).

(** The value of the output: a mass Series, or the 1-tuple [(value,)] built
    by the trailing comma of the first branch. *)
Inductive atomic_mass_value := Masses (m : list float) | Tuple1 (v : atomic_mass_value).

(** The masses [atom_data.loc[selected_atoms].mass] selects: for each
    selected atomic number, in order, the masses of all rows of that atomic
    number, or one NaN when there is none. *)
Fixpoint loc_mass_rows (ad : atom_data) (sel : list nat) : list float :=
  match sel with
  | [] => []
  | z :: sel' =>
      match filter (fun p => Nat.eqb z (fst p)) ad with
      | [] => [NaN]
      | ps => map (fun p => Fin (snd p)) ps
      end ++ loc_mass_rows ad sel'
  end.

(** [atomic_data.atom_data.loc[selected_atoms].mass] in the pandas of this
    code: a list of labels none of which is in the index raises [KeyError]
    ([None]); a label missing among present ones gives NaN. *)
Definition loc_mass (ad : atom_data) (sel : list nat) : option (list float) :=
  if negb (Nat.eqb (length sel) 0)
     && forallb (fun z => negb (existsb (fun p => Nat.eqb z (fst p)) ad)) sel
  then None
  else Some (loc_mass_rows ad sel).

(** [AtomicMass.calculate(self, atomic_data, selected_atoms)]. *)
Definition calculate (atomic_mass : option atomic_mass_value) (inp : inputs)
    : option atomic_mass_value :=
  match atomic_mass with
  | Some v => Some (Tuple1 v)
  | None => option_map Masses (loc_mass (fst inp) (snd inp))
  end.

End AtomicMass.

(** ** [atomic.IonizationData._filter_atomic_property] *)
Module IonData.
Import Index PhotoIonization.

(** The ionization-energy Series, indexed by [(atomic_number, ion_number)]. *)
Definition ionization_table := list (key * Q).

(** The result: the filtered Series, or [IncompleteAtomicData] with the
    atomic numbers and counts of the message. *)
Inductive filter_result :=
  | Filtered (t : ionization_table)
  | IncompleteAtomicData (atomic_numbers : list nat) (counts : list nat).

Definition atomic_number (row : key * Q) : nat := nth 0 (fst row) O.

(** [IonizationData._filter_atomic_property(ionization_data, selected_atoms)];
    [groupby(level='atomic_number')] groups by the one-level key
    [[atomic_number]], in sorted order. *)
Definition filter_atomic_property (ionization_data : ionization_table)
    (selected_atoms : list nat) : filter_result :=
  let mask row := existsb (Nat.eqb (atomic_number row)) selected_atoms in
  let ionization_data := filter mask ionization_data in
  let by_atom := map (fun row => [atomic_number row]) ionization_data in
  let counts := map (fun g => (nth 0 g O, group_count by_atom g)) (group_keys by_atom) in
  if forallb (fun p => Nat.eqb (fst p) (snd p)) counts then Filtered ionization_data
  else
    let bad := filter (fun p => negb (Nat.eqb (fst p) (snd p))) counts in
    IncompleteAtomicData (map fst bad) (map snd bad).

End IonData.

(** ** Level and transition indices *)
Module Levels.
Import Index.

(** [multi_index.droplevel(n)] on one index entry. *)
Definition droplevel (k : key) (n : nat) : key := firstn n k ++ skipn (S n) k.

End Levels.

(** [atomic.LinesLowerLevelIndex] and [atomic.LinesUpperLevelIndex].
    [levels] is the (unique) level index, [lines] the index
    [(atomic_number, ion_number, level_number_lower, level_number_upper)]
    of the line list. *)
Module LineIndex.
Import Index Frame PhotoIonization Levels.

(** [pd.Series(np.arange(len(levels)), index=levels)] *)
Definition levels_index (levels : list key) : list (key * nat) :=
  combine levels (seq 0 (length levels)).

(** [LinesLowerLevelIndex.calculate(levels, lines)] *)
Definition lines_lower_level_index (levels lines : list key) : res (list nat) :=
  let lines_index := map (fun k => droplevel k 3) lines in
  loc_assoc (levels_index levels) lines_index.

(** [LinesUpperLevelIndex.calculate(levels, lines)] *)
Definition lines_upper_level_index (levels lines : list key) : res (list nat) :=
  let lines_index := map (fun k => droplevel k 2) lines in
  loc_assoc (levels_index levels) lines_index.

End LineIndex.

(** ** [continuum_processes.CollDeexcRateCoeff] *)
Module CollDeexc.
Import Index Frame Levels Flt CorrPhotoIon.
Local Open Scope Q_scope.

(** [CollDeexcRateCoeff.calculate(thermal_lte_level_boltzmann_factor,
    coll_exc_coeff)]: [coll_exc_coeff] is indexed by
    [(atomic_number, ion_number, level_number_lower, level_number_upper)];
    the Boltzmann factors are looked up by level and multiplied
    positionally ([.values]); the division is a double division. *)
Definition calculate (thermal_lte_level_boltzmann_factor coll_exc_coeff : frame) : res fframe :=
  let ll_index := map (fun k => droplevel k 3) (index coll_exc_coeff) in
  let lu_index := map (fun k => droplevel k 2) (index coll_exc_coeff) in
  n_lower_prop <- loc_rows thermal_lte_level_boltzmann_factor ll_index ;;
  n_upper_prop <- loc_rows thermal_lte_level_boltzmann_factor lu_index ;;
  let t := map2 (map2 Qmult) (values coll_exc_coeff) n_lower_prop in
  Ok (mk_fframe (index coll_exc_coeff)
        (map2 (map2 (fun a b => fdiv (Fin a) (Fin b))) t n_upper_prop)).

End CollDeexc.

(** ** [atomic.YgData.calculate] after the merge *)
Module YgIndex.
Import Index Frame PhotoIonization Yg Levels.
Local Open Scope Q_scope.

(** The body of [YgData.calculate] from the merge on, with
    [approximate_yg_data] the table computed by
    [calculate_yg_van_regemorter]: the merged table, its index, the
    energy differences [delta_E] and the macro-atom indices [yg_idx] of
    each transition. *)
Definition calculate (yg_data approximate_yg_data : table) (ncols : nat)
    (energies : list (key * Q)) (macro_atom_references : list (key * nat))
    : res (table * list key * list (key * Q) * list (key * (nat * nat))) :=
  let yg_data := combine_first yg_data approximate_yg_data ncols in
  let index := map fst yg_data in
  let lu_index := map (fun k => droplevel k 2) index in
  let ll_index := map (fun k => droplevel k 3) index in
  e_u <- loc_assoc energies lu_index ;;
  e_l <- loc_assoc energies ll_index ;;
  let delta_E := combine index (map2 Qminus e_u e_l) in
  source_idx <- loc_assoc macro_atom_references ll_index ;;
  destination_idx <- loc_assoc macro_atom_references lu_index ;;
  let yg_idx := combine index (combine source_idx destination_idx) in
  Ok (yg_data, index, delta_E, yg_idx).

End YgIndex.

(** ** [continuum_processes.StimRecombRateCoeff] *)
Module StimRecomb.
Import Index Frame.
Local Open Scope Q_scope.

(** [StimRecombRateCoeff.calculate].  [alpha_stim_dilute_bb] stands for
    [calculate_from_dilute_bb(photo_ion_cross_sections,
    photo_ion_block_references, photo_ion_index, t_rad, w, t_electrons)]
    (a table indexed by [photo_ion_index], one column per shell);
    [phi_ik] has the same shell columns.  Without an estimator the dilute
    values are multiplied by the rows [phi_ik.loc[alpha_stim.index]] (same
    index, hence row by row); with one, shell [j] of the estimator is
    multiplied by the [j]-th normalisation factor. *)
Definition calculate (alpha_stim_dilute_bb : frame) (alpha_stim_estimator : option frame)
    (photo_ion_norm_factor : list Q) (phi_ik : frame) : res frame :=
  match alpha_stim_estimator with
  | None =>
      let alpha_stim := alpha_stim_dilute_bb in
      phi <- loc_rows phi_ik (index alpha_stim) ;;
      Ok (mk_frame (index alpha_stim) (map2 (map2 Qmult) (values alpha_stim) phi))
  | Some est =>
      Ok (mk_frame (index est) (map (fun row => map2 Qmult row photo_ion_norm_factor) (values est)))
  end.

End StimRecomb.

(** * Proofs *)

(** ** List helpers *)

Lemma length_upd {A} (l : list A) n v : length (upd l n v) = length l.
Proof. revert n; induction l; intros [|n]; simpl; auto. Qed.

Lemma nth_upd {A} (l : list A) n m v d :
  nth m (upd l n v) d = if Nat.eqb m n then (if Nat.ltb n (length l) then v else nth m l d)
                        else nth m l d.
Proof.
  revert n m; induction l as [|h t IH]; intros [|n] [|m]; simpl; auto;
    try (destruct (_ =? _); reflexivity).
Qed.

(** ** Block integrator *)
Module IntegrateFacts.
Import Integrate.
Local Open Scope Q_scope.

(** Entry [m[b, c]] of a row-major matrix. *)
Definition entry (m : list (list Q)) (b c : nat) : Q := nth c (nth b m []) 0.

(** [m] has [B] rows of [C] entries each. *)
Definition shape (m : list (list Q)) (B C : nat) : Prop :=
  length m = B /\ forall k, (k < B)%nat -> length (nth k m []) = C.

(** Discharges [shape m B C] for a concrete matrix. *)
Ltac solve_shape :=
  split; [reflexivity|intros k Hk; repeat (destruct k as [|k]; [reflexivity|]); simpl in Hk; lia].

Lemma shape_set2 m B C j i v :
  shape m B C -> (j < B)%nat -> (i < C)%nat ->
  shape (set2 m j i v) B C /\
  forall b c, (b < B)%nat -> (c < C)%nat ->
    entry (set2 m j i v) b c = if Nat.eqb b j && Nat.eqb c i then v else entry m b c.
Proof.
  intros [Hl Hr] Hj Hi. unfold set2, entry. split; [split|].
  - rewrite length_upd. exact Hl.
  - intros k Hk. rewrite nth_upd.
    destruct (Nat.eqb_spec k j); [subst|auto].
    replace (Nat.ltb j (length m)) with true by (symmetry; apply Nat.ltb_lt; lia).
    rewrite length_upd. auto.
  - intros b c Hb Hc. rewrite nth_upd.
    destruct (Nat.eqb_spec b j) as [->|]; simpl; [|reflexivity].
    replace (Nat.ltb j (length m)) with true by (symmetry; apply Nat.ltb_lt; lia).
    rewrite nth_upd.
    destruct (Nat.eqb_spec c i) as [->|]; [|reflexivity].
    rewrite (Hr j Hj).
    replace (Nat.ltb i C) with true by (symmetry; apply Nat.ltb_lt; lia).
    reflexivity.
Qed.

Lemma fold_inner (g : nat -> Q) i B C (L : list nat) : forall m,
  shape m B C -> (i < C)%nat -> (forall j, In j L -> (j < B)%nat) ->
  shape (fold_left (fun m j => set2 m j i (g j)) L m) B C /\
  forall b c, (b < B)%nat -> (c < C)%nat ->
    entry (fold_left (fun m j => set2 m j i (g j)) L m) b c
    = if Nat.eqb c i && existsb (Nat.eqb b) L then g b else entry m b c.
Proof.
  induction L as [|j L IH]; intros m Hm Hi HL; simpl.
  - split; [exact Hm|]. intros b c _ _. rewrite andb_false_r. reflexivity.
  - destruct (shape_set2 m B C j i (g j) Hm (HL j (or_introl eq_refl)) Hi) as [Hs He].
    destruct (IH _ Hs Hi (fun j' H => HL j' (or_intror H))) as [Hs' He'].
    split; [exact Hs'|]. intros b c Hb Hc. rewrite He', He by assumption.
    destruct (Nat.eqb_spec c i), (Nat.eqb_spec b j), (existsb (Nat.eqb b) L);
      simpl; subst; reflexivity.
Qed.

Lemma existsb_seq b B : (b < B)%nat -> existsb (Nat.eqb b) (seq 0 B) = true.
Proof.
  intros H. apply existsb_exists. exists b. split.
  - apply in_seq. lia.
  - apply Nat.eqb_refl.
Qed.

Lemma fold_outer (g : nat -> nat -> Q) B C (L : list nat) : forall m,
  shape m B C -> (forall i, In i L -> (i < C)%nat) ->
  shape (fold_left (fun m i => fold_left (fun m j => set2 m j i (g j i)) (seq 0 (length m)) m) L m) B C /\
  forall b c, (b < B)%nat -> (c < C)%nat ->
    entry (fold_left (fun m i => fold_left (fun m j => set2 m j i (g j i)) (seq 0 (length m)) m) L m) b c
    = if existsb (Nat.eqb c) L then g b c else entry m b c.
Proof.
  induction L as [|i L IH]; intros m Hm HL; simpl.
  - split; [exact Hm|]. reflexivity.
  - assert (Hin : forall j, In j (seq 0 B) -> (j < B)%nat)
      by (intros j Hj; apply in_seq in Hj; lia).
    rewrite (proj1 Hm).
    destruct (fold_inner (fun j => g j i) i B C (seq 0 B) m Hm (HL i (or_introl eq_refl)) Hin)
      as [Hs He].
    destruct (IH _ Hs (fun i' H => HL i' (or_intror H))) as [Hs' He'].
    split; [exact Hs'|]. intros b c Hb Hc. rewrite He', He by assumption.
    rewrite existsb_seq by exact Hb.
    destruct (Nat.eqb_spec c i), (existsb (Nat.eqb c) L); simpl; subst; reflexivity.
Qed.

Lemma shape_zeros B C : shape (zeros B C) B C.
Proof.
  unfold zeros, shape. split.
  - apply repeat_length.
  - intros k Hk. rewrite nth_repeat_lt by exact Hk. apply repeat_length.
Qed.

Lemma entry_zeros B C b c : entry (zeros B C) b c = 0.
Proof.
  unfold entry, zeros. destruct (Nat.lt_ge_cases b B).
  - rewrite nth_repeat_lt by exact H. destruct (Nat.lt_ge_cases c C).
    + rewrite nth_repeat_lt by exact H0. reflexivity.
    + apply nth_overflow. rewrite repeat_length. exact H0.
  - rewrite (nth_overflow (repeat (repeat 0 C) B)) by (rewrite repeat_length; exact H).
    destruct c; reflexivity.
Qed.

Lemma trapz_short y x : (length y <= 1)%nat -> trapz y x = 0.
Proof.
  intros H. destruct y as [|y0 [|y1 y]]; simpl in *.
  - reflexivity.
  - destruct x; reflexivity.
  - lia.
Qed.

Lemma trapz_zero y : forall x, Forall (fun v => v == 0) y -> trapz y x == 0.
Proof.
  induction y as [|y0 y IH]; intros x Hy; [reflexivity|].
  inversion Hy as [|? ? H0 Ht]; subst.
  destruct y as [|y1 y'] ; [destruct x; reflexivity|].
  destruct x as [|x0 [|x1 x']]; try reflexivity.
  inversion Ht as [|? ? H1 _]; subst.
  change (trapz (y0 :: y1 :: y') (x0 :: x1 :: x'))
    with ((x1 - x0) * (y0 + y1) / 2 + trapz (y1 :: y') (x1 :: x')).
  rewrite (IH (x1 :: x') Ht), H0, H1. field.
Qed.

Lemma length_slice {A} (l : list A) s e : (length (slice l s e) <= e - s)%nat.
Proof. unfold slice. rewrite length_firstn. lia. Qed.


Lemma Forall_slice {A} (P : A -> Prop) l s e : Forall P l -> Forall P (slice l s e).
Proof.
  intros H. unfold slice. revert l H. generalize (e - s)%nat as n.
  induction s as [|s IH]; intros n l H; simpl.
  - revert l H. induction n as [|n IHn]; intros [|a l] H; simpl; auto.
    inversion H; subst. constructor; auto.
  - destruct l as [|a l]; [destruct n; constructor|]. inversion H; subst. apply IH. auto.
Qed.

Lemma Forall_column_zero (f : array2) i :
  Forall (Forall (fun v => v == 0)) (rows f) -> Forall (fun v => v == 0) (column f i).
Proof.
  intros H. unfold column. apply Forall_map. eapply Forall_impl; [|exact H].
  intros row Hrow. destruct (Nat.lt_ge_cases i (length row)).
  - rewrite Forall_forall in Hrow. apply Hrow. apply nth_In. exact H0.
  - rewrite nth_overflow by exact H0. reflexivity.
Qed.

Lemma integrate_entries f x br :
  shape (integrate_array_by_blocks f x br) (length br - 1) (shape1 f) /\
  forall b c, (b < length br - 1)%nat -> (c < shape1 f)%nat ->
    entry (integrate_array_by_blocks f x br) b c = block_integral f x br b c.
Proof.
  unfold integrate_array_by_blocks. cbv zeta.
  set (B := (length br - 1)%nat). set (C := shape1 f).
  destruct (fold_outer (block_integral f x br) B C (seq 0 C) (zeros B C) (shape_zeros B C))
    as [Hs He].
  { intros i Hi. apply in_seq in Hi. lia. }
  split; [exact Hs|]. intros b c Hb Hc. rewrite He by assumption.
  rewrite existsb_seq by exact Hc. reflexivity.
Qed.

(** Claim C2.  [integrate_array_by_blocks f x block_references] is a
    [B x C] array ([B = len(block_references) - 1], [C = f.shape[1]]) whose
    entry [(b, c)] is the trapezoidal integral of [f[:, c]] against [x] over
    the rows [block_references[b] .. block_references[b+1]); a block of at
    most one row integrates to 0, and an identically zero [f] gives an
    all-zero result. *)
Theorem integrate_array_by_blocks_correct (f : array2) (x : list Q) (block_references : list nat) :
  let out := integrate_array_by_blocks f x block_references in
  let B := (length block_references - 1)%nat in
  length out = B /\
  (forall b, (b < B)%nat -> length (nth b out []) = shape1 f) /\
  (forall b c, (b < B)%nat -> (c < shape1 f)%nat ->
     let start := nth b block_references O in
     let stop := nth (S b) block_references O in
     nth c (nth b out []) 0 = trapz (slice (column f c) start stop) (slice x start stop)) /\
  (forall b c, (b < B)%nat -> (c < shape1 f)%nat ->
     (nth (S b) block_references O - nth b block_references O <= 1)%nat ->
     nth c (nth b out []) 0 = 0) /\
  (Forall (Forall (fun v => v == 0)) (rows f) ->
     forall b c, (b < B)%nat -> (c < shape1 f)%nat -> nth c (nth b out []) 0 == 0).
Proof.
  intros out B.
  destruct (integrate_entries f x block_references) as [[Hl Hr] He].
  split; [exact Hl|]. split; [exact Hr|]. split; [|split].
  - intros b c Hb Hc. apply (He b c Hb Hc).
  - intros b c Hb Hc Hlen. change (entry out b c = 0). unfold out.
    rewrite He by assumption. unfold block_integral. apply trapz_short.
    eapply Nat.le_trans; [apply length_slice|]. exact Hlen.
  - intros Hz b c Hb Hc. change (entry out b c == 0). unfold out.
    rewrite He by assumption. unfold block_integral. apply trapz_zero.
    apply Forall_slice, Forall_column_zero, Hz.
Qed.

Lemma integrate_array_by_blocks_witness :
  let f := mk_array2 1 [[1]; [3]; [5]] in
  let x := [0; 1; 2] in
  nth 0 (nth 0 (integrate_array_by_blocks f x [0; 2; 3]%nat) []) 0
    = trapz [1; 3] [0; 1] /\
  nth 0 (nth 1 (integrate_array_by_blocks f x [0; 2; 3]%nat) []) 0 = 0.
Proof.
  intros f x.
  destruct (integrate_array_by_blocks_correct f x [0; 2; 3]%nat) as [_ [_ [He [Hs _]]]].
  split.
  - apply (He 0%nat 0%nat); simpl; lia.
  - apply (Hs 1%nat 0%nat); simpl; lia.
Defined.

End IntegrateFacts.

(** ** Tables *)
Module FrameFacts.
Import Index Frame IntegrateFacts.
Local Open Scope Q_scope.

Lemma nth_map_in {A B} (f : A -> B) l n d d' :
  (n < length l)%nat -> nth n (map f l) d = f (nth n l d').
Proof.
  intros H. rewrite nth_indep with (d' := f d') by (rewrite length_map; exact H).
  apply map_nth.
Qed.

Lemma length_map2 {A B C} (f : A -> B -> C) a b :
  length (map2 f a b) = Nat.min (length a) (length b).
Proof. unfold map2. rewrite length_map. apply length_combine. Qed.

Lemma nth_map2 {A B C} (f : A -> B -> C) a b n da db dc :
  (n < length a)%nat -> (n < length b)%nat ->
  nth n (map2 f a b) dc = f (nth n a da) (nth n b db).
Proof.
  revert a b. induction n as [|n IH]; intros [|x a] [|y b] Ha Hb; simpl in *;
    try lia; auto.
  apply IH; lia.
Qed.

Lemma shape_map2 (f : Q -> Q -> Q) a b R S :
  shape a R S -> shape b R S ->
  shape (map2 (map2 f) a b) R S /\
  forall r s, (r < R)%nat -> (s < S)%nat ->
    entry (map2 (map2 f) a b) r s = f (entry a r s) (entry b r s).
Proof.
  intros [Hla Hra] [Hlb Hrb]. split; [split|].
  - rewrite length_map2. lia.
  - intros k Hk. rewrite (nth_map2 _ _ _ _ [] []) by lia.
    rewrite length_map2, Hra, Hrb by exact Hk. lia.
  - intros r s Hr Hs. unfold entry.
    rewrite (nth_map2 _ _ _ _ [] []) by lia.
    apply nth_map2; [rewrite Hra|rewrite Hrb]; lia.
Qed.

Lemma shape_map_row (f : Q -> Q -> Q) a v R S :
  shape a R S -> length v = S ->
  shape (map (fun row => map2 f row v) a) R S /\
  forall r s, (r < R)%nat -> (s < S)%nat ->
    entry (map (fun row => map2 f row v) a) r s = f (entry a r s) (nth s v 0).
Proof.
  intros [Hla Hra] Hv. split; [split|].
  - rewrite length_map. exact Hla.
  - intros k Hk. rewrite (nth_map_in _ _ _ _ []) by lia.
    rewrite length_map2, Hra by exact Hk. lia.
  - intros r s Hr Hs. unfold entry.
    rewrite (nth_map_in _ _ _ _ []) by lia.
    apply nth_map2; [rewrite Hra|]; lia.
Qed.

Lemma Qltb_iff x y : Qltb x y = true <-> x < y.
Proof.
  unfold Qltb. rewrite negb_true_iff. split; intros H.
  - apply Qnot_le_lt. intros Hle. apply Qle_bool_iff in Hle. congruence.
  - destruct (Qle_bool y x) eqn:E; [|reflexivity].
    apply Qle_bool_iff in E. exfalso. apply (Qlt_not_le x y H E).
Qed.

Lemma list_sum_zero l : list_sum l = O <-> forall n, In n l -> n = O.
Proof.
  induction l as [|a l IH]; simpl; [split; auto; contradiction|].
  split.
  - intros H n [<-|Hn]; [lia|]. apply IH; [lia|exact Hn].
  - intros H. rewrite (H a (or_introl eq_refl)). apply IH. intros n Hn. apply H. auto.
Qed.

Lemma loc_rows_length df ks rows : loc_rows df ks = Ok rows -> length rows = length ks.
Proof.
  revert rows. induction ks as [|k ks IH]; intros rows H; simpl in H.
  - injection H as <-. reflexivity.
  - destruct (find_row _ _ k); [|discriminate].
    destruct (loc_rows df ks) eqn:E; simpl in H; [|discriminate].
    injection H as <-. simpl. rewrite (IH _ eq_refl). reflexivity.
Qed.

Lemma loc_rows_nth df ks rows :
  loc_rows df ks = Ok rows ->
  forall r, (r < length ks)%nat -> find_row (index df) (values df) (nth r ks []) = Some (nth r rows []).
Proof.
  revert rows. induction ks as [|k ks IH]; intros rows H r Hr; simpl in *; [lia|].
  destruct (find_row _ _ k) eqn:Ek; [|discriminate].
  destruct (loc_rows df ks) eqn:E; simpl in H; [|discriminate].
  injection H as <-. destruct r as [|r].
  - exact Ek.
  - simpl. apply IH; [reflexivity|lia].
Qed.

Lemma nth_get_ion_multi_index idx next_higher r :
  (r < length idx)%nat ->
  nth r (get_ion_multi_index idx next_higher) [] =
  [nth 0 (nth r idx []) O;
   if next_higher then S (nth 1 (nth r idx []) O) else nth 1 (nth r idx []) O].
Proof.
  unfold get_ion_multi_index, from_arrays2, get_level_values.
  destruct next_higher; revert r; induction idx as [|k idx IH]; intros r Hr;
    simpl in Hr; try lia; destruct r as [|r]; simpl; auto; apply IH; lia.
Qed.

End FrameFacts.

(** ** Group keys and block references *)
Module PhotoIonizationFacts.
Import Index Frame FrameFacts PhotoIonization.
Local Open Scope nat_scope.

Lemma key_eqb_eq k1 k2 : key_eqb k1 k2 = true <-> k1 = k2.
Proof.
  revert k2; induction k1 as [|a k1 IH]; intros [|b k2]; simpl;
    try (split; congruence).
  rewrite andb_true_iff, Nat.eqb_eq, IH. split; [intros [-> ->]; reflexivity|].
  intros H; injection H; auto.
Qed.

Lemma key_eqb_refl k : key_eqb k k = true.
Proof. apply key_eqb_eq. reflexivity. Qed.

Definition key_lt (k1 k2 : key) : Prop := key_ltb k1 k2 = true.

Lemma key_ltb_irrefl k : key_ltb k k = false.
Proof.
  induction k as [|a k IH]; simpl; [reflexivity|].
  rewrite Nat.ltb_irrefl, Nat.eqb_refl, IH. reflexivity.
Qed.

Lemma key_ltb_trans k1 k2 k3 : key_lt k1 k2 -> key_lt k2 k3 -> key_lt k1 k3.
Proof.
  unfold key_lt. revert k2 k3; induction k1 as [|a k1 IH]; intros [|b k2] [|c k3];
    simpl; try discriminate; auto.
  rewrite !orb_true_iff, !andb_true_iff, !Nat.ltb_lt, !Nat.eqb_eq.
  intros [H1|[-> H1]] [H2|[-> H2]]; try (left; lia).
  right. split; [reflexivity|]. eapply IH; eauto.
Qed.

Lemma key_ltb_total k1 k2 : k1 <> k2 -> key_ltb k1 k2 = false -> key_lt k2 k1.
Proof.
  unfold key_lt. revert k2; induction k1 as [|a k1 IH]; intros [|b k2]; simpl;
    try congruence.
  rewrite orb_false_iff, andb_false_iff, Nat.ltb_ge, Nat.eqb_neq.
  intros Hne [Hab Hk]. rewrite orb_true_iff, andb_true_iff, Nat.ltb_lt, Nat.eqb_eq.
  destruct (Nat.eq_dec a b) as [<-|Hab']; [|left; lia].
  right. split; [reflexivity|]. apply IH.
  - intros <-. apply Hne. reflexivity.
  - destruct Hk as [Hk|Hk]; [lia|exact Hk].
Qed.

Lemma insert_key_In k l x : In x (insert_key k l) <-> x = k \/ In x l.
Proof.
  induction l as [|h t IH]; simpl.
  - intuition congruence.
  - destruct (key_ltb k h); [simpl; intuition congruence|].
    destruct (key_eqb k h) eqn:E.
    + apply key_eqb_eq in E as ->. simpl. intuition congruence.
    + simpl. rewrite IH. intuition congruence.
Qed.

Lemma insert_key_sorted k l :
  StronglySorted key_lt l -> StronglySorted key_lt (insert_key k l).
Proof.
  induction l as [|h t IH]; intros Hs; simpl.
  - constructor; constructor.
  - inversion Hs as [|? ? Ht Hf]; subst.
    destruct (key_ltb k h) eqn:Elt.
    + constructor; [exact Hs|]. constructor; [exact Elt|].
      eapply Forall_impl; [|exact Hf]. intros y Hy. eapply key_ltb_trans; eauto.
    + destruct (key_eqb k h) eqn:Eeq; [exact Hs|].
      constructor; [apply IH, Ht|]. apply Forall_forall. intros y Hy.
      apply insert_key_In in Hy as [->|Hy].
      * apply key_ltb_total; [|exact Elt]. intros ->. rewrite key_eqb_refl in Eeq. discriminate.
      * rewrite Forall_forall in Hf. apply Hf, Hy.
Qed.

Lemma group_keys_fold_In ks : forall acc g,
  In g (fold_left (fun acc k => insert_key k acc) ks acc) <-> In g ks \/ In g acc.
Proof.
  induction ks as [|k ks IH]; intros acc g; simpl; [tauto|].
  rewrite IH, insert_key_In. intuition congruence.
Qed.

Lemma group_keys_In ks g : In g (group_keys ks) <-> In g ks.
Proof. unfold group_keys. rewrite group_keys_fold_In. simpl. tauto. Qed.

Lemma group_keys_sorted ks : StronglySorted key_lt (group_keys ks).
Proof.
  unfold group_keys. assert (H : StronglySorted key_lt []) by constructor.
  revert H. generalize (@nil key) as acc.
  induction ks as [|k ks IH]; intros acc H; simpl; [exact H|].
  apply IH, insert_key_sorted, H.
Qed.

Lemma sorted_NoDup l : StronglySorted key_lt l -> NoDup l.
Proof.
  induction 1 as [|a l Hs IH Hf]; constructor; [|exact IH].
  intros Ha. rewrite Forall_forall in Hf. specialize (Hf a Ha).
  unfold key_lt in Hf. rewrite key_ltb_irrefl in Hf. discriminate.
Qed.

Lemma sum_indicator G k :
  NoDup G -> In k G -> list_sum (map (fun g => if key_eqb g k then 1 else 0) G) = 1.
Proof.
  induction 1 as [|g G Hg HG IH]; simpl; [contradiction|].
  intros [<-|Hk].
  - rewrite key_eqb_refl.
    cut (list_sum (map (fun g0 => if key_eqb g0 g then 1 else 0) G) = 0); [lia|].
    apply list_sum_zero. intros n Hn. apply in_map_iff in Hn as [g' [<- Hg']].
    destruct (key_eqb g' g) eqn:E; [|reflexivity].
    apply key_eqb_eq in E as ->. contradiction.
  - destruct (key_eqb g k) eqn:E.
    + apply key_eqb_eq in E as ->. contradiction.
    + simpl. apply IH, Hk.
Qed.

Lemma sum_group_count G ks :
  NoDup G -> (forall k, In k ks -> In k G) ->
  list_sum (map (group_count ks) G) = length ks.
Proof.
  intros HG. induction ks as [|k ks IH]; intros Hin.
  - unfold group_count. simpl. apply list_sum_zero. intros n Hn.
    apply in_map_iff in Hn as [g [<- _]]. reflexivity.
  - transitivity (list_sum (map (fun g => if key_eqb g k then 1 else 0) G)
                  + list_sum (map (group_count ks) G)).
    + clear. induction G as [|g G IH]; simpl; [reflexivity|].
      rewrite IH. unfold group_count. simpl. destruct (key_eqb g k); simpl; lia.
    + rewrite sum_indicator by (auto; apply Hin; left; reflexivity).
      rewrite IH by (intros k' Hk'; apply Hin; right; exact Hk'). reflexivity.
Qed.

Lemma cumsum_from_length acc l : length (cumsum_from acc l) = length l.
Proof. revert acc; induction l; simpl; auto. Qed.

Lemma cumsum_from_step l : forall acc i, i < length l ->
  nth (S i) (acc :: cumsum_from acc l) 0 = nth i (acc :: cumsum_from acc l) 0 + nth i l 0.
Proof.
  induction l as [|x l IH]; intros acc i Hi; simpl in *; [lia|].
  destruct i as [|i]; [reflexivity|].
  specialize (IH (acc + x) i ltac:(lia)). simpl in IH. exact IH.
Qed.

Lemma cumsum_from_last l : forall acc,
  nth (length l) (acc :: cumsum_from acc l) 0 = acc + list_sum l.
Proof.
  induction l as [|x l IH]; intros acc; simpl; [lia|].
  specialize (IH (acc + x)). simpl in IH. rewrite IH. lia.
Qed.

End PhotoIonizationFacts.

Module PhotoIonizationData.
Import Index Frame FrameFacts PhotoIonization PhotoIonizationFacts.
Local Open Scope nat_scope.

Lemma calculate_ok ad species out :
  calculate ad species = Ok out ->
  let data := filter (fun row => existsb (key_eqb (firstn 2 (fst row))) species)
                (photoionization_data ad) in
  let idx := map fst data in
  exists source_idx destination_idx,
    photo_ion_cross_sections out = data /\
    photo_ion_block_references out
      = 0 :: cumsum_from 0 (map (group_count idx) (group_keys idx)) /\
    photo_ion_index out = unique idx /\
    map fst (nu_i out) = group_keys idx /\
    loc_assoc (macro_atom_references ad) (unique idx) = Ok source_idx /\
    loc_assoc (macro_atom_references ad) (get_ground_state_multi_index (unique idx))
      = Ok destination_idx /\
    photo_ion_idx out = combine (unique idx) (combine source_idx destination_idx).
Proof.
  intros H data idx. unfold calculate in H. cbv zeta in H. fold data idx in H.
  destruct (loc_assoc (levels_energy ad) _) as [e|]; simpl in H; [|discriminate].
  destruct (loc_assoc (macro_atom_references ad) (unique _)) as [src|] eqn:Es;
    simpl in H; [|discriminate].
  destruct (loc_assoc (macro_atom_references ad) (get_ground_state_multi_index _))
    as [dst|] eqn:Ed; simpl in H; [|discriminate].
  injection H as <-. exists src, dst. simpl.
  repeat split; auto. rewrite map_map. simpl. apply map_id.
Qed.

Lemma loc_assoc_nth {A} (t : list (key * A)) ks vs :
  loc_assoc t ks = Ok vs ->
  length vs = length ks /\
  forall j d, j < length ks -> lookup t (nth j ks []) = Some (nth j vs d).
Proof.
  revert vs. induction ks as [|k ks IH]; intros vs H; simpl in H.
  - injection H as <-. split; [reflexivity|]. simpl. lia.
  - destruct (lookup t k) as [v|] eqn:Ek; [|discriminate].
    destruct (loc_assoc t ks) as [rest|] eqn:E; simpl in H; [|discriminate].
    injection H as <-. destruct (IH rest eq_refl) as [Hl Hn].
    split; [simpl; lia|]. intros [|j] d Hj; [exact Ek|]. apply Hn. simpl in Hj. lia.
Qed.





Lemma ground_state_map idx :
  get_ground_state_multi_index idx = map (fun k => [nth 0 k 0; S (nth 1 k 0); 0]) idx.
Proof.
  unfold get_ground_state_multi_index, from_arrays3, get_level_values.
  induction idx as [|k idx IH]; simpl; [reflexivity|]. rewrite IH. reflexivity.
Qed.

Lemma ion_map idx next_higher :
  get_ion_multi_index idx next_higher
  = map (fun k => [nth 0 k 0; if next_higher then S (nth 1 k 0) else nth 1 k 0]) idx.
Proof.
  unfold get_ion_multi_index, from_arrays2, get_level_values.
  destruct next_higher; induction idx as [|k idx IH]; simpl; auto; rewrite IH; reflexivity.
Qed.



Lemma group_count_pos idx g : In g idx -> 1 <= group_count idx g.
Proof.
  intros H. unfold group_count.
  destruct (filter (key_eqb g) idx) eqn:E; [|simpl; lia].
  assert (Hf : In g (filter (key_eqb g) idx)) by (apply filter_In; split; [exact H|apply key_eqb_refl]).
  rewrite E in Hf. contradiction.
Qed.

(** Claim C5 (as amended).  The block-reference array of
    [PhotoIonizationData] starts at 0, has one entry more than there are
    levels, and is strictly increasing; the difference of entries [i] and
    [i + 1] is the number of cross-section samples of the [i]-th level, so
    the last entry is the total number of samples.  The levels (and
    [nu_i]) follow the lexicographic order of the level keys, the order
    of [groupby], not the threshold frequency. *)
Theorem photo_ion_block_references_correct ad continuum_interaction_species out :
  calculate ad continuum_interaction_species = Ok out ->
  let idx := map fst (photo_ion_cross_sections out) in
  let levels := group_keys idx in
  let br := photo_ion_block_references out in
  nth 0 br 0 = 0 /\
  length br = S (length levels) /\
  (forall i, i < length levels ->
     nth (S i) br 0 - nth i br 0 = group_count idx (nth i levels []) /\
     nth i br 0 < nth (S i) br 0) /\
  nth (length levels) br 0 = length idx /\
  (forall g, In g levels <-> In g idx) /\
  StronglySorted key_lt levels /\
  map fst (nu_i out) = levels.
Proof.
  intros H. cbv zeta.
  destruct (calculate_ok ad continuum_interaction_species out H)
    as [src [dst [Hx [Hbr [_ [Hnu _]]]]]].
  cbv zeta in *. rewrite <- Hx in Hbr, Hnu. rewrite Hbr.
  set (idx := map fst (photo_ion_cross_sections out) : list key) in *.
  set (levels := group_keys idx) in *.
  assert (HG : forall g, In g levels <-> In g idx) by (intros g; apply group_keys_In).
  split; [reflexivity|]. split.
  { simpl. rewrite cumsum_from_length, length_map. reflexivity. }
  split.
  { intros i Hi.
    rewrite cumsum_from_step by (rewrite length_map; exact Hi).
    rewrite (nth_map_in _ _ _ _ ([] : key)) by exact Hi.
    pose proof (group_count_pos idx (nth i levels [])
                  (proj1 (HG _) (nth_In _ _ Hi))).
    split; [apply Nat.add_sub_eq_l; reflexivity|]. apply Nat.lt_add_pos_r. exact H0. }
  split.
  { pose proof (cumsum_from_last (map (group_count idx) levels) 0) as Hl.
    rewrite length_map in Hl. simpl in Hl.
    pose proof (sum_group_count levels idx (sorted_NoDup _ (group_keys_sorted idx))
                  (fun k Hk => proj2 (HG k) Hk)) as Hs.
    etransitivity; [exact Hl|exact Hs]. }
  split; [exact HG|]. split; [apply group_keys_sorted|exact Hnu].
Qed.

Lemma photo_ion_block_references_witness :
  exists out, calculate hydrogen_data [[1; 0]] = Ok out /\
    photo_ion_block_references out = [0; 2; 3] /\
    nth 2 (photo_ion_block_references out) 0 = 3.
Proof.
  eexists. split; [reflexivity|]. split; [reflexivity|].
  destruct (photo_ion_block_references_correct hydrogen_data [[1; 0]] _ eq_refl)
    as [_ [_ [_ [Hl _]]]].
  exact Hl.
Defined.

(** Claim C5 fails as stated: with hydrogen data sorted by level key, the
    ground level (highest threshold) comes first, so the blocks are not
    ordered by ascending threshold frequency. *)
Lemma photo_ion_block_order_counterexample :
  ~ (forall ad continuum_interaction_species out,
       calculate ad continuum_interaction_species = Ok out ->
       forall i, S i < length (nu_i out) ->
       Qle (snd (nth i (nu_i out) ([], 0%Q))) (snd (nth (S i) (nu_i out) ([], 0%Q)))).
Proof.
  intros H.
  specialize (H hydrogen_data [[1; 0]] _ eq_refl 0 ltac:(simpl; lia)).
  simpl in H. unfold Qle in H. simpl in H. lia.
Qed.

(** Claim C8 (as amended).  Re-applying [get_ground_state_multi_index], or
    [get_ion_multi_index] with [next_higher=True], raises the ion number
    once more per application; [get_ion_multi_index] with
    [next_higher=False] is idempotent.  Both transforms are many-to-one on
    level keys: two levels have the same image exactly when they have the
    same atomic and ion number. *)
Theorem key_transforms_reapplication :
  (forall idx, get_ground_state_multi_index (get_ground_state_multi_index idx)
               = map (fun k => [nth 0 k 0; S (S (nth 1 k 0)); 0]) idx) /\
  (forall idx, get_ion_multi_index (get_ion_multi_index idx true) true
               = map (fun k => [nth 0 k 0; S (S (nth 1 k 0))]) idx) /\
  (forall idx, get_ion_multi_index (get_ion_multi_index idx false) false
               = get_ion_multi_index idx false) /\
  (forall a1 i1 l1 a2 i2 l2 next_higher,
     get_ion_multi_index [[a1; i1; l1]] next_higher
     = get_ion_multi_index [[a2; i2; l2]] next_higher <-> a1 = a2 /\ i1 = i2) /\
  (forall a1 i1 l1 a2 i2 l2,
     get_ground_state_multi_index [[a1; i1; l1]]
     = get_ground_state_multi_index [[a2; i2; l2]] <-> a1 = a2 /\ i1 = i2).
Proof.
  split; [|split; [|split; [|split]]].
  - intros idx. rewrite !ground_state_map, map_map. reflexivity.
  - intros idx. rewrite !ion_map, map_map. reflexivity.
  - intros idx. rewrite !ion_map, map_map. reflexivity.
  - intros a1 i1 l1 a2 i2 l2 [|]; simpl; split.
    + intros H. injection H. intros. split; [assumption|]. lia.
    + intros [-> ->]. reflexivity.
    + intros H. injection H. auto.
    + intros [-> ->]. reflexivity.
  - intros a1 i1 l1 a2 i2 l2. simpl. split.
    + intros H. injection H. intros. split; [assumption|]. lia.
    + intros [-> ->]. reflexivity.
Qed.

Lemma key_transforms_reapplication_witness :
  get_ion_multi_index [[1; 0; 0]] true = get_ion_multi_index [[1; 0; 3]] true /\
  get_ground_state_multi_index (get_ground_state_multi_index [[1; 0; 0]]) = [[1; 2; 0]].
Proof.
  destruct key_transforms_reapplication as [Hg [_ [_ [Hi _]]]]. split.
  - apply (proj2 (Hi 1 0 0 1 0 3 true)). split; reflexivity.
  - rewrite Hg. reflexivity.
Defined.

(** Claim C8 fails as stated: re-applying the ground-state transform to
    the key of the hydrogen ground level moves on to the next ion. *)
Lemma key_transforms_idempotence_counterexample :
  ~ ((forall idx, get_ground_state_multi_index (get_ground_state_multi_index idx)
                  = get_ground_state_multi_index idx) /\
     (forall idx next_higher,
        get_ion_multi_index (get_ion_multi_index idx next_higher) next_higher
        = get_ion_multi_index idx next_higher)).
Proof.
  intros [H _]. specialize (H [[1; 0; 0]]). simpl in H. discriminate.
Qed.

End PhotoIonizationData.

(** ** Re-indexing of transition-probability tables *)
Module IndexSetterFacts.
Import Index Frame PhotoIonization IndexSetter.
Local Open Scope nat_scope.

Lemma loc_assoc_total {A} (t : list (key * A)) ks :
  forallb (fun k => match lookup t k with Some _ => true | None => false end) ks = true ->
  exists vs, loc_assoc t ks = Ok vs.
Proof.
  induction ks as [|k ks IH]; simpl; intros H; [eauto|].
  apply andb_true_iff in H as [Hk H].
  destruct (lookup t k) as [v|]; [|discriminate].
  destruct (IH H) as [vs ->]. simpl. eauto.
Qed.

Lemma set_index_ok p t tt reverse idx :
  loc_assoc t (index p) = Ok idx ->
  set_index p t tt reverse =
  Ok (mk_transition_frame
        ["source_level_idx"; "destination_level_idx"; "transition_type"]%string
        (map (fun i =>
                if reverse
                then [nth i (map snd idx) 0%Z; nth i (map fst idx) 0%Z;
                      nth i (map (fun _ => tt) idx) 0%Z]
                else [nth i (map fst idx) 0%Z; nth i (map snd idx) 0%Z;
                      nth i (map (fun _ => tt) idx) 0%Z])
             (seq 0 (length idx)))
        (values p)).
Proof.
  intros H. unfold set_index. rewrite H. simpl.
  destruct reverse; simpl; rewrite length_map; reflexivity.
Qed.

(** C10: for every table [p] whose index keys all occur in the lookup
    table, [set_index] succeeds and returns a table with the values of [p]
    unchanged (same rows, same order), one index tuple per row, level names
    [source_level_idx], [destination_level_idx], [transition_type]; the
    tuple of row [i] is [(d, s, transition_type)] when [reverse] is true and
    [(s, d, transition_type)] otherwise, where [(s, d)] is the lookup's
    [(source_level_idx, destination_level_idx)] for the key of row [i]. *)
Theorem set_index_correct p t tt reverse
  (Hcov : forallb (fun k => match lookup t k with Some _ => true | None => false end)
                  (index p) = true) :
  exists out,
    set_index p t tt reverse = Ok out /\
    tvalues out = values p /\
    length (index_tuples out) = length (index p) /\
    index_names out = ["source_level_idx"; "destination_level_idx"; "transition_type"]%string /\
    forall i k, nth_error (index p) i = Some k ->
      exists s d, lookup t k = Some (s, d) /\
        nth_error (index_tuples out) i = Some (if reverse then [d; s; tt] else [s; d; tt]).
Proof.
  destruct (loc_assoc_total t (index p) Hcov) as [idx Hidx].
  destruct (PhotoIonizationData.loc_assoc_nth t (index p) idx Hidx) as [Hlen Hnth].
  eexists. rewrite (set_index_ok p t tt reverse idx Hidx).
  split; [reflexivity|]. split; [reflexivity|].
  split; [simpl; rewrite length_map, length_seq; exact Hlen|].
  split; [reflexivity|].
  intros i k Hk. simpl.
  assert (Hi : i < length (index p)) by (apply nth_error_Some; congruence).
  assert (Ek : k = nth i (index p) []) by (symmetry; apply nth_error_nth; exact Hk).
  subst k. rewrite (Hnth i (0%Z, 0%Z) Hi).
  exists (fst (nth i idx (0%Z, 0%Z))), (snd (nth i idx (0%Z, 0%Z))).
  split; [destruct (nth i idx (0%Z, 0%Z)); reflexivity|].
  rewrite nth_error_map, nth_error_seq.
  destruct (Nat.ltb_spec i (length idx)); [|lia]. simpl.
  rewrite (nth_indep (map (fun _ => tt) idx) 0%Z tt) by (rewrite length_map; lia).
  rewrite !(map_nth fst idx (0%Z, 0%Z)), !(map_nth snd idx (0%Z, 0%Z)),
    (map_nth (fun _ => tt) idx (0%Z, 0%Z)).
  reflexivity.
Qed.

Lemma set_index_witness :
  exists out,
    set_index (mk_frame [[1;0;0]; [1;0;1]] [[1%Q; 2%Q]; [3%Q; 4%Q]])
              [([1;0;0], (0%Z, 2%Z)); ([1;0;1], (1%Z, 2%Z))] 1%Z true = Ok out /\
    tvalues out = [[1%Q; 2%Q]; [3%Q; 4%Q]] /\
    length (index_tuples out) = 2 /\
    index_names out = ["source_level_idx"; "destination_level_idx"; "transition_type"]%string /\
    forall i k, nth_error [[1;0;0]; [1;0;1]] i = Some k ->
      exists s d, lookup [([1;0;0], (0%Z, 2%Z)); ([1;0;1], (1%Z, 2%Z))] k = Some (s, d) /\
        nth_error (index_tuples out) i = Some [d; s; 1%Z].
Proof.
  apply (set_index_correct (mk_frame [[1;0;0]; [1;0;1]] [[1%Q; 2%Q]; [3%Q; 4%Q]])
           [([1;0;0], (0%Z, 2%Z)); ([1;0;1], (1%Z, 2%Z))] 1%Z true).
  reflexivity.
Defined.

End IndexSetterFacts.

(** ** Merge of collision-strength tables *)
Module YgFacts.
Import Index Frame PhotoIonization Yg PhotoIonizationFacts.
Local Open Scope nat_scope.

Lemma keys_eqb_eq a b : keys_eqb a b = true <-> a = b.
Proof.
  revert b; induction a as [|k a IH]; intros [|k' b]; simpl; try (split; congruence).
  rewrite andb_true_iff, key_eqb_eq, IH. split; [intros [-> ->]; reflexivity|].
  intros H; injection H; auto.
Qed.

Lemma keys_nodupb_NoDup ks : keys_nodupb ks = true -> NoDup ks.
Proof.
  induction ks as [|k ks IH]; simpl; intros H; [constructor|].
  apply andb_true_iff in H as [Hn H]. constructor; [|auto].
  intros Hk. apply negb_true_iff in Hn.
  assert (He : existsb (key_eqb k) ks = true)
    by (apply existsb_exists; exists k; split; [exact Hk|apply key_eqb_refl]).
  congruence.
Qed.

Lemma lookup_Some_In {A} (t : list (key * A)) k v : lookup t k = Some v -> In (k, v) t.
Proof.
  unfold lookup. destruct (find _ t) as [[k' v']|] eqn:E; simpl; intros H; [|discriminate].
  injection H as <-. apply find_some in E as [Hin Hk]. simpl in Hk.
  apply key_eqb_eq in Hk. subst. exact Hin.
Qed.

Lemma lookup_In_NoDup {A} (t : list (key * A)) k v :
  NoDup (map fst t) -> In (k, v) t -> lookup t k = Some v.
Proof.
  induction t as [|[k' v'] t IH]; simpl; [tauto|]. intros Hnd Hin.
  inversion Hnd as [|? ? Hnotin Hnd']; subst. unfold lookup; simpl.
  destruct (key_eqb k k') eqn:E.
  - apply key_eqb_eq in E. subst k'. destruct Hin as [Heq|Hin]; [injection Heq as ->; reflexivity|].
    exfalso. apply Hnotin. apply (in_map fst) in Hin. exact Hin.
  - destruct Hin as [Heq|Hin]; [injection Heq as -> ->; rewrite key_eqb_refl in E; discriminate|].
    apply IH; assumption.
Qed.

Lemma lookup_map_key {A} (f : key -> A) idx k v :
  lookup (map (fun k => (k, f k)) idx) k = Some v -> v = f k.
Proof.
  intros H. apply lookup_Some_In, in_map_iff in H as [k' [Heq _]].
  injection Heq as -> ->. reflexivity.
Qed.

Lemma well_formed_spec t n :
  well_formed t n = true -> NoDup (map fst t) /\ forall k r, In (k, r) t -> length r = n.
Proof.
  unfold well_formed. rewrite andb_true_iff, forallb_forall. intros [Hnd Hl].
  split; [apply keys_nodupb_NoDup; exact Hnd|].
  intros k r Hin. apply Nat.eqb_eq, (Hl (k, r) Hin).
Qed.

Lemma length_get_row t n k :
  well_formed t n = true -> length (get_row t n k) = n.
Proof.
  intros [_ Hl]%well_formed_spec. unfold get_row.
  destruct (lookup t k) as [r|] eqn:E; [apply (Hl k), lookup_Some_In, E|apply repeat_length].
Qed.

Lemma nth_fill_combine a b j :
  length a = length b -> j < length a ->
  nth j (map (fun '(x, y) => fill x y) (combine a b)) None = fill (nth j a None) (nth j b None).
Proof.
  revert b j; induction a as [|x a IH]; intros [|y b] [|j]; simpl; intros Hl Hj;
    try lia; [reflexivity|]. apply IH; lia.
Qed.

Lemma length_fill_combine a b :
  length a = length b -> length (map (fun '(x, y) => fill x y) (combine a b)) = length a.
Proof. intros H. rewrite length_map, length_combine, H. lia. Qed.

Lemma fill_self_combine a : map (fun '(x, y) => fill x y) (combine a a) = a.
Proof. induction a as [|[x|] a IH]; simpl; rewrite ?IH; reflexivity. Qed.

Lemma nth_repeat_None j n : nth j (@repeat (option Q) None n) None = None.
Proof.
  revert j; induction n as [|n IH]; intros [|j]; simpl; auto.
Qed.

Lemma index_union_In a b k : In k (index_union a b) <-> In k a \/ In k b.
Proof.
  unfold index_union. destruct b as [|kb b]; [simpl; tauto|].
  destruct (keys_eqb a (kb :: b)) eqn:E.
  - apply keys_eqb_eq in E. rewrite E. tauto.
  - destruct a as [|ka a]; [simpl; tauto|].
    rewrite group_keys_In, in_app_iff. tauto.
Qed.

(** Rows of the merge: every entry is the tabulated one, or the
    approximate one where the tabulated one is NaN. *)
Lemma combine_first_row s o n k row :
  well_formed s n = true -> well_formed o n = true ->
  lookup (combine_first s o n) k = Some row ->
  length row = n /\
  forall j, j < n -> nth j row None = fill (nth j (get_row s n k) None) (nth j (get_row o n k) None).
Proof.
  intros Hs Ho H.
  destruct o as [|po o'].
  - simpl in H. assert (Hr : get_row s n k = row) by (unfold get_row; rewrite H; reflexivity).
    split; [rewrite <- Hr; apply length_get_row, Hs|].
    intros j _. rewrite Hr. unfold get_row. simpl. rewrite nth_repeat_None.
    destruct (nth j row None); reflexivity.
  - destruct s as [|ps s'].
    + simpl in H. assert (Hr : get_row (po :: o') n k = row) by (unfold get_row; rewrite H; reflexivity).
      split; [rewrite <- Hr; apply length_get_row, Ho|].
      intros j _. rewrite Hr. unfold get_row. simpl. rewrite nth_repeat_None. reflexivity.
    + unfold combine_first in H. apply lookup_map_key in H. subst row.
      pose proof (length_get_row _ _ k Hs) as Ls. pose proof (length_get_row _ _ k Ho) as Lo.
      split; [rewrite length_fill_combine; congruence|].
      intros j Hj. apply nth_fill_combine; lia.
Qed.

Lemma index_union_self ks : index_union ks ks = ks.
Proof.
  unfold index_union. destruct ks as [|k ks]; [reflexivity|].
  rewrite (proj2 (keys_eqb_eq (k :: ks) (k :: ks)) eq_refl). reflexivity.
Qed.

Lemma combine_first_self_eq s n : well_formed s n = true -> combine_first s s n = s.
Proof.
  intros Hs. destruct (well_formed_spec s n Hs) as [Hnd _].
  destruct s as [|ps s']; [reflexivity|].
  unfold combine_first. rewrite index_union_self, map_map.
  transitivity (map (fun p : key * list (option Q) => p) (ps :: s')); [|apply map_id].
  apply map_ext_in. intros [k r] Hin. simpl.
  unfold get_row. rewrite (lookup_In_NoDup _ k r Hnd Hin), fill_self_combine. reflexivity.
Qed.

(** C7: for well-formed tables [s] (tabulated) and [o] (approximate) with
    the same [n] temperature columns, [combine_first s o n] has exactly the
    keys of [s] and [o]; in every row, an entry that [s] has is kept
    unchanged and an entry that [s] lacks (NaN, or no row in [s]) is taken
    from [o]; and the merge is idempotent: merging [s] with itself gives
    [s], merging [s] with an empty table gives [s]. *)
Theorem yg_merge_prefer_tabulated (s o : table) (n : nat)
  (Hs : well_formed s n = true) (Ho : well_formed o n = true) :
  (forall k, In k (map fst (combine_first s o n)) <-> In k (map fst s) \/ In k (map fst o)) /\
  (forall k row j, lookup (combine_first s o n) k = Some row -> j < n ->
     length row = n /\
     (forall x, nth j (get_row s n k) None = Some x -> nth j row None = Some x) /\
     (nth j (get_row s n k) None = None -> nth j row None = nth j (get_row o n k) None)) /\
  combine_first s s n = s /\
  combine_first s [] n = s.
Proof.
  split; [|split; [|split]].
  - intros k. destruct o as [|po o']; [simpl; tauto|].
    destruct s as [|ps s']; [simpl; tauto|].
    unfold combine_first. rewrite map_map, map_id.
    apply index_union_In.
  - intros k row j H Hj. destruct (combine_first_row s o n k row Hs Ho H) as [Hl Hn].
    rewrite (Hn j Hj). split; [exact Hl|]. split.
    + intros x ->. reflexivity.
    + intros ->. reflexivity.
  - apply combine_first_self_eq, Hs.
  - reflexivity.
Qed.

Lemma yg_merge_prefer_tabulated_witness :
  let s := [([1;0;0;1], [Some 1%Q; None]); ([1;0;0;2], [Some 2%Q; Some 3%Q])] in
  let o := [([1;0;0;1], [Some 5%Q; Some 6%Q]); ([1;0;1;2], [Some 7%Q; Some 8%Q])] in
  well_formed s 2 = true /\ well_formed o 2 = true /\
  ((forall k, In k (map fst (combine_first s o 2)) <-> In k (map fst s) \/ In k (map fst o)) /\
   (forall k row j, lookup (combine_first s o 2) k = Some row -> j < 2 ->
      length row = 2 /\
      (forall x, nth j (get_row s 2 k) None = Some x -> nth j row None = Some x) /\
      (nth j (get_row s 2 k) None = None -> nth j row None = nth j (get_row o 2 k) None)) /\
   combine_first s s 2 = s /\
   combine_first s [] 2 = s).
Proof.
  intros s o. split; [reflexivity|]. split; [reflexivity|].
  apply yg_merge_prefer_tabulated; reflexivity.
Defined.

End YgFacts.

(** ** Corrected photoionization rate coefficient *)
Module CorrPhotoIonFacts.
Import Index Frame IntegrateFacts FrameFacts Flt CorrPhotoIon Yg YgFacts.
Local Open Scope Q_scope.

(** A table of [R] rows of [S] entries of any type. *)
Definition gshape {A} (m : list (list A)) (R S : nat) : Prop :=
  length m = R /\ forall r, (r < R)%nat -> length (nth r m []) = S.

Lemma gshape_of_shape m R S : shape m R S -> gshape m R S.
Proof. intros H. exact H. Qed.

Lemma gshape_map2 {A B C} (f : A -> B -> C) a b R S da db dc :
  gshape a R S -> gshape b R S ->
  gshape (map2 (map2 f) a b) R S /\
  forall r s, (r < R)%nat -> (s < S)%nat ->
    nth s (nth r (map2 (map2 f) a b) []) dc
    = f (nth s (nth r a []) da) (nth s (nth r b []) db).
Proof.
  intros [Hla Hra] [Hlb Hrb]. split; [split|].
  - rewrite length_map2. lia.
  - intros k Hk. rewrite (nth_map2 _ _ _ _ [] []) by lia.
    rewrite length_map2, Hra, Hrb by exact Hk. lia.
  - intros r s Hr Hs.
    rewrite (nth_map2 _ _ _ _ [] []) by lia.
    apply nth_map2; [rewrite Hra|rewrite Hrb]; lia.
Qed.

Lemma gshape_map_fin m R S :
  shape m R S ->
  gshape (map (map Fin) m) R S /\
  forall r s, (r < R)%nat -> (s < S)%nat ->
    nth s (nth r (map (map Fin) m) []) NaN = Fin (entry m r s).
Proof.
  intros [Hl Hr]. split; [split|].
  - rewrite length_map. exact Hl.
  - intros k Hk. rewrite (nth_map_in (map Fin) m k [] []) by lia.
    rewrite length_map. apply Hr, Hk.
  - intros r s Hr' Hs. rewrite (nth_map_in (map Fin) m r [] []) by lia.
    apply nth_map_in. rewrite Hr; lia.
Qed.

Lemma num_neg_elements_zero m :
  num_neg_elements m = O <-> forall row v, In row m -> In v row -> fltb0 v = false.
Proof.
  unfold num_neg_elements. rewrite list_sum_zero. split.
  - intros H row v Hrow Hv. destruct (fltb0 v) eqn:Hneg; [|reflexivity].
    assert (Hz : length (filter fltb0 row) = O)
      by (apply H, in_map_iff; eauto).
    apply length_zero_iff_nil in Hz.
    assert (Hin : In v (filter fltb0 row)) by (apply filter_In; split; assumption).
    rewrite Hz in Hin. destruct Hin.
  - intros H n Hn. apply in_map_iff in Hn as [row [<- Hrow]].
    destruct (filter fltb0 row) as [|v l] eqn:E; [reflexivity|].
    exfalso. assert (Hin : In v (filter fltb0 row)) by (rewrite E; left; auto).
    apply filter_In in Hin as [Hv Hneg]. rewrite (H row v Hrow Hv) in Hneg.
    discriminate.
Qed.

Lemma num_neg_elements_zero_shape m R S :
  gshape m R S ->
  num_neg_elements m = O <->
  forall r s, (r < R)%nat -> (s < S)%nat -> fltb0 (nth s (nth r m []) NaN) = false.
Proof.
  intros [Hl Hr]. rewrite num_neg_elements_zero. split.
  - intros H r s HR HS. apply (H (nth r m [])).
    + apply nth_In. lia.
    + apply nth_In. rewrite Hr by exact HR. exact HS.
  - intros H row v Hrow Hv.
    apply In_nth with (d := []) in Hrow as [r [HR <-]].
    apply In_nth with (d := NaN) in Hv as [s [HS <-]].
    rewrite Hr in HS by lia. apply H; lia.
Qed.

Lemma num_neg_elements_nonzero m :
  num_neg_elements m <> O -> exists row v, In row m /\ In v row /\ fltb0 v = true.
Proof.
  unfold num_neg_elements. induction m as [|row m IH]; simpl; intros H; [lia|].
  destruct (filter fltb0 row) as [|v l] eqn:E.
  - destruct (IH H) as [row' [v [H1 [H2 H3]]]]. exists row', v. auto.
  - assert (Hin : In v (filter fltb0 row)) by (rewrite E; left; reflexivity).
    apply filter_In in Hin as [Hv Hneg]. exists row, v. auto.
Qed.

Lemma exists_neg_entry m R S :
  gshape m R S -> num_neg_elements m <> O ->
  exists r s, (r < R)%nat /\ (s < S)%nat /\ fltb0 (nth s (nth r m []) NaN) = true.
Proof.
  intros [Hl Hr] H.
  destruct (num_neg_elements_nonzero m H) as [row [v [Hrow [Hv Hneg]]]].
  apply In_nth with (d := []) in Hrow as [r [HR <-]].
  apply In_nth with (d := NaN) in Hv as [s [HS <-]].
  rewrite Hr in HS by lia. exists r, s. repeat split; auto; lia.
Qed.

Lemma fltb0_fin_false q : fltb0 (Fin q) = false -> 0 <= q.
Proof.
  simpl. intros H. apply Qnot_lt_le. intros Hlt. apply Qltb_iff in Hlt. congruence.
Qed.

Lemma fdiv_nonzero a b : ~ b == 0 -> fdiv (Fin a) (Fin b) = Fin (a / b).
Proof.
  intros H. simpl. destruct (Qcompare b 0) eqn:E; try reflexivity.
  exfalso. apply H. apply Qeq_alt, E.
Qed.

Lemma fdiv_zero a b : b == 0 -> fdiv (Fin a) (Fin b) = inf_of (Qcompare a 0).
Proof. intros H. simpl. apply Qeq_alt in H. rewrite H. reflexivity. Qed.

(** Claim C1.  When [gamma] and [alpha_stim] carry the same index and the
    densities can be looked up, [CorrPhotoIonRateCoeff.calculate] computes
    entrywise, in floating point, [gamma - alpha_stim * n_k * n_e / n_i]
    (with [n_k] the ion number density of the next-higher ion
    [(Z, ion + 1)] of each level and [n_i] the level number density).  It
    raises [PlasmaException] exactly when some entry of that difference is
    negative ([-inf] included) and otherwise returns the whole table; it
    raises nothing else.  Where [n_i <> 0] the entry is the exact formula,
    and in a returned table it is non-negative.  Where [n_i = 0] and the
    numerator is [0] the entry is NaN, which does not count as negative;
    where [n_i = 0] and the numerator is positive it is [-inf]. *)
Theorem corr_photo_ion_rate_coeff_calculate_correct
    (gamma alpha_stim : frame) (electron_densities : list Q)
    (ion_number_density level_number_density : frame)
    (n_k n_i : list (list Q)) (R C : nat) :
  index gamma = index alpha_stim ->
  length (index alpha_stim) = R ->
  shape (values gamma) R C -> shape (values alpha_stim) R C ->
  length electron_densities = C ->
  loc_rows ion_number_density (get_ion_multi_index (index alpha_stim) true) = Ok n_k ->
  loc_rows level_number_density (index alpha_stim) = Ok n_i ->
  shape n_k R C -> shape n_i R C ->
  let num r s :=
    entry (values alpha_stim) r s * entry n_k r s * nth s electron_densities 0 in
  let diff r s := fsub (Fin (entry (values gamma) r s)) (fdiv (Fin (num r s)) (Fin (entry n_i r s))) in
  let result := calculate gamma alpha_stim electron_densities
                  ion_number_density level_number_density in
  (forall r, (r < R)%nat ->
     let k := nth r (index alpha_stim) [] in
     find_row (index ion_number_density) (values ion_number_density)
       [nth 0 k O; S (nth 1 k O)] = Some (nth r n_k []) /\
     find_row (index level_number_density) (values level_number_density) k
       = Some (nth r n_i [])) /\
  (forall r s, (r < R)%nat -> (s < C)%nat ->
     (~ entry n_i r s == 0 -> diff r s = Fin (entry (values gamma) r s - num r s / entry n_i r s)) /\
     (entry n_i r s == 0 -> num r s == 0 -> diff r s = NaN) /\
     (entry n_i r s == 0 -> 0 < num r s -> diff r s = NInf)) /\
  (forall gamma_corr, result = Ok gamma_corr ->
     findex gamma_corr = index gamma /\ gshape (fvalues gamma_corr) R C /\
     forall r s, (r < R)%nat -> (s < C)%nat ->
       nth s (nth r (fvalues gamma_corr) []) NaN = diff r s /\ fltb0 (diff r s) = false /\
       forall q, diff r s = Fin q -> 0 <= q) /\
  (result = Err PlasmaException <->
     exists r s, (r < R)%nat /\ (s < C)%nat /\ fltb0 (diff r s) = true) /\
  (forall e, result = Err e -> e = PlasmaException).
Proof.
  intros Hidx HR Hg Ha Hne Hk Hi Hsk Hsi num diff result.
  assert (Hlk : length (get_ion_multi_index (index alpha_stim) true) = R).
  { rewrite <- (loc_rows_length _ _ _ Hk). exact (proj1 Hsk). }
  split.
  { intros r Hr. cbv zeta. split.
    - rewrite <- (nth_get_ion_multi_index (index alpha_stim) true r) by lia.
      apply (loc_rows_nth _ _ _ Hk). lia.
    - apply (loc_rows_nth _ _ _ Hi). lia. }
  split.
  { intros r s Hr Hs. split; [|split].
    - intros Hnz. unfold diff. rewrite fdiv_nonzero by exact Hnz. reflexivity.
    - intros Hz Hn. unfold diff. rewrite fdiv_zero by exact Hz.
      apply Qeq_alt in Hn. rewrite Hn. reflexivity.
    - intros Hz Hn. unfold diff. rewrite fdiv_zero by exact Hz.
      apply Qgt_alt in Hn. rewrite Hn. reflexivity. }
  destruct (shape_map2 Qmult _ _ R C Ha Hsk) as [Hs1 He1].
  destruct (shape_map_row Qmult _ _ R C Hs1 Hne) as [Hs2 He2].
  set (t2 := map (fun row => map2 Qmult row electron_densities)
               (map2 (map2 Qmult) (values alpha_stim) n_k)) in *.
  destruct (gshape_map2 (fun a b => fdiv (Fin a) (Fin b)) t2 n_i R C 0 0 NaN Hs2 Hsi)
    as [Hs3 He3].
  set (t3 := map2 (map2 (fun a b => fdiv (Fin a) (Fin b))) t2 n_i) in *.
  destruct (gshape_map_fin _ _ _ Hg) as [HsG HeG].
  destruct (gshape_map2 fsub _ _ R C NaN NaN NaN HsG Hs3) as [Hs4 He4].
  set (gc := map2 (map2 fsub) (map (map Fin) (values gamma)) t3) in *.
  assert (Hent : forall r s, (r < R)%nat -> (s < C)%nat -> nth s (nth r gc []) NaN = diff r s).
  { intros r s Hr Hs. unfold gc. rewrite He4, He3, HeG by assumption.
    unfold diff, num. f_equal. f_equal. f_equal.
    change (nth s (nth r t2 []) 0) with (entry t2 r s). unfold t2.
    rewrite He2, He1 by assumption. reflexivity. }
  assert (Hkeq : keys_eqb (index gamma) (index alpha_stim) = true)
    by (apply keys_eqb_eq; exact Hidx).
  assert (Hres : result = if Nat.eqb (num_neg_elements gc) 0
                          then Ok (mk_fframe (index gamma) gc) else Err PlasmaException).
  { unfold result, calculate. rewrite Hk, Hi. simpl. unfold sub_aligned. simpl.
    rewrite Hkeq. reflexivity. }
  pose proof (num_neg_elements_zero_shape gc R C Hs4) as Hz.
  destruct (Nat.eqb_spec (num_neg_elements gc) 0) as [H0|H0]; rewrite Hres.
  - split; [|split].
    + intros gamma_corr Heq. injection Heq as <-. simpl.
      split; [reflexivity|]. split; [exact Hs4|].
      intros r s Hr Hs. rewrite <- Hent by assumption.
      assert (Hf : fltb0 (nth s (nth r gc []) NaN) = false) by (apply Hz; assumption).
      split; [reflexivity|]. split; [exact Hf|].
      intros q Hq. rewrite Hq in Hf. apply fltb0_fin_false, Hf.
    + split; [discriminate|]. intros [r [s [Hr [Hs Hneg]]]].
      rewrite <- Hent in Hneg by assumption.
      rewrite (proj1 Hz H0 r s Hr Hs) in Hneg. discriminate.
    + intros e He. discriminate.
  - split; [|split].
    + intros gamma_corr Heq. discriminate.
    + split; [intros _|reflexivity].
      destruct (exists_neg_entry gc R C Hs4 H0) as [r [s [Hr [Hs Hneg]]]].
      exists r, s. rewrite <- Hent by assumption. auto.
    + intros e He. injection He as <-. reflexivity.
Qed.

Lemma corr_photo_ion_rate_coeff_calculate_witness :
  exists gamma_corr,
    calculate (mk_frame [[1;0;0]%nat] [[5]]) (mk_frame [[1;0;0]%nat] [[1]]) [2]
      (mk_frame [[1;1]%nat] [[1]]) (mk_frame [[1;0;0]%nat] [[1]]) = Ok gamma_corr /\
    nth 0 (nth 0 (fvalues gamma_corr) []) NaN = Fin (5 - 1 * 1 * 2 / 1).
Proof.
  eexists. split; [reflexivity|].
  destruct (corr_photo_ion_rate_coeff_calculate_correct
              (mk_frame [[1;0;0]%nat] [[5]]) (mk_frame [[1;0;0]%nat] [[1]]) [2]
              (mk_frame [[1;1]%nat] [[1]]) (mk_frame [[1;0;0]%nat] [[1]])
              [[1]] [[1]] 1 1 eq_refl eq_refl ltac:(solve_shape) ltac:(solve_shape) eq_refl
              eq_refl eq_refl ltac:(solve_shape) ltac:(solve_shape))
    as [_ [Hd [Hok _]]].
  rewrite (proj1 (proj2 (proj2 (Hok _ eq_refl)) 0%nat 0%nat ltac:(lia) ltac:(lia))).
  apply (Hd 0%nat 0%nat); [lia|lia|]. vm_compute. discriminate.
Defined.

(** Both densities of the level [(1, 0, 0)] vanish, so the quotient is
    [0 / 0 = NaN]: the call raises nothing and returns a table whose entry
    is NaN rather than a non-negative number. *)
Lemma corr_photo_ion_rate_coeff_nan_counterexample :
  calculate (mk_frame [[1;0;0]%nat] [[1]]) (mk_frame [[1;0;0]%nat] [[1]]) [1]
    (mk_frame [[1;1]%nat] [[0]]) (mk_frame [[1;0;0]%nat] [[0]])
  = Ok (mk_fframe [[1;0;0]%nat] [[NaN]]).
Proof. vm_compute. reflexivity. Qed.

End CorrPhotoIonFacts.

(** ** Photoionization rate coefficient: analytic and estimator branches *)
Module PhotoIonRateFacts.
Import Index Frame Integrate IntegrateFacts FrameFacts Flt CorrPhotoIon CorrPhotoIonFacts
  PhotoIonRate.
Local Open Scope Q_scope.

Lemma pow_m1_nonzero x : ~ x == 0 -> pow_m1 x = Fin (/ x).
Proof.
  intros H. unfold pow_m1. destruct (Qcompare x 0) eqn:E; try reflexivity.
  exfalso. apply H, Qeq_alt, E.
Qed.

Lemma pow_m1_zero x : x == 0 -> pow_m1 x = PInf.
Proof. intros H. unfold pow_m1. apply Qeq_alt in H. rewrite H. reflexivity. Qed.

Lemma h_cgs_nonzero : ~ h_cgs == 0.
Proof. unfold h_cgs, Qeq. simpl. discriminate. Qed.

Lemma Qmult_nonzero a b : ~ a == 0 -> ~ b == 0 -> ~ a * b == 0.
Proof. intros Ha Hb H. apply Qmult_integral in H as [H|H]; contradiction. Qed.

(** The integrand of [calculate_from_dilute_bb], column by column. *)
Lemma dilute_column (j_nus : list (list Q)) (x_sect nu : list Q) N C c :
  shape j_nus N C -> length x_sect = N -> length nu = N -> (c < C)%nat ->
  column (mk_array2 C (map2 (fun row f => map (fun v => v * f) row) j_nus
                         (map2 (fun x n => 4 * pi * x / n / h_cgs) x_sect nu))) c
  = map (fun k => entry j_nus k c * (4 * pi * nth k x_sect 0 / nth k nu 0 / h_cgs))
      (seq 0 N).
Proof.
  intros [Hl Hr] Hx Hn Hc. unfold column. simpl.
  apply nth_ext with (d := 0) (d' := 0).
  - rewrite !length_map, length_map2, length_map2, length_seq. lia.
  - intros k Hk. rewrite length_map, length_map2, length_map2 in Hk.
    rewrite (nth_map_in (fun row => nth c row 0) _ k 0 []) by (rewrite length_map2, length_map2; lia).
    rewrite (nth_map_in _ (seq 0 N) k 0 0%nat) by (rewrite length_seq; lia).
    rewrite seq_nth by lia.
    rewrite (nth_map2 _ j_nus _ k [] 0 []) by (rewrite ?length_map2; lia).
    rewrite (nth_map_in (fun v => v * _) _ c 0 0) by (rewrite Hr; lia).
    rewrite (nth_map2 _ x_sect nu k 0 0 0) by lia.
    reflexivity.
Qed.

(** The claimed cold-start behaviour fails for the class the continuum
    property collection uses: [continuum.PhotoIonRateCoeff] returns [None]
    when there is no estimator, and returns an estimator unscaled. *)
Lemma photo_ion_rate_branch_counterexample :
  PhotoIonRateCont.calculate None [[1;0;0]%nat] = None /\
  PhotoIonRateCont.calculate (Some [[2]]) [[1;0;0]%nat]
    = Some (mk_frame [[1;0;0]%nat] [[2]]).
Proof. split; reflexivity. Qed.

(** C4 (amended).  In [continuum_processes.PhotoIonRateCoeff], without an
    estimator and with one block reference more than levels, gamma is
    returned indexed by [photo_ion_index], one row per level and one column
    per shell, and its entry [(b, c)] is the trapezoidal integral over the
    samples of block [b] of [4 pi x_sect J_nu / (h nu)] against [nu];
    with another number of block references it raises [ValueError].  With
    an estimator whose rows have one entry per shell, gamma keeps the
    estimator's index, and where [time_simulation] and the shell volumes are
    non-zero its entry [(i, j)] is the estimator's times
    [1 / (time_simulation * volume_j * h)]; a zero product gives an infinite
    factor.  The branches agree on the index exactly when the estimator is
    indexed by [photo_ion_index].  [continuum.PhotoIonRateCoeff] returns
    [None] without an estimator and otherwise the estimator, unscaled, under
    [photo_ion_index_sorted]. *)
Theorem photo_ion_rate_branches j_blues xs br photo_ion_index t_rad w nf
    (est : frame) time_simulation volume :
  let nu := map (fun r => fst (snd r)) xs in
  let x_sect := map (fun r => snd (snd r)) xs in
  let j_nus := j_blues xs nu t_rad w in
  shape j_nus (length xs) (length t_rad) ->
  (forall k, (k < length xs)%nat -> ~ nth k nu 0 == 0) ->
  ~ time_simulation == 0 ->
  (forall j, (j < length volume)%nat -> ~ nth j volume 0 == 0) ->
  (forall i, (i < length (values est))%nat -> length (nth i (values est) []) = length volume) ->
  ((length br = S (length photo_ion_index) ->
    exists g,
      calculate j_blues xs None nf br photo_ion_index t_rad w = Ok g /\
      findex g = photo_ion_index /\
      gshape (fvalues g) (length photo_ion_index) (length t_rad) /\
      forall b c, (b < length photo_ion_index)%nat -> (c < length t_rad)%nat ->
        let start := nth b br O in
        let stop := nth (S b) br O in
        nth c (nth b (fvalues g) []) NaN =
        Fin (trapz
               (slice (map (fun k => entry j_nus k c
                                     * (4 * pi * nth k x_sect 0 / nth k nu 0 / h_cgs))
                         (seq 0 (length xs))) start stop)
               (slice nu start stop))) /\
   (length br <> S (length photo_ion_index) ->
    calculate j_blues xs None nf br photo_ion_index t_rad w = Err ValueError)) /\
  (exists g,
     calculate j_blues xs (Some est) (norm_factor time_simulation volume) br
       photo_ion_index t_rad w = Ok g /\
     findex g = index est /\
     gshape (fvalues g) (length (values est)) (length volume) /\
     (forall i j, (i < length (values est))%nat -> (j < length volume)%nat ->
        nth j (nth i (fvalues g) []) NaN
        = Fin (entry (values est) i j * / (time_simulation * nth j volume 0 * h_cgs))) /\
     (findex g = photo_ion_index <-> index est = photo_ion_index)) /\
  (forall t vol j, (j < length vol)%nat -> t * nth j vol 0 == 0 ->
     nth j (norm_factor t vol) NaN = PInf) /\
  (forall s, PhotoIonRateCont.calculate None s = None) /\
  (forall s e, PhotoIonRateCont.calculate (Some e) s = Some (mk_frame s e)).
Proof.
  intros nu x_sect j_nus Hj Hnu Ht Hv Hrows.
  split; [split|split; [|split; [|split; reflexivity]]].
  - (* dilute-blackbody branch *)
    intros Hlen.
    set (scaled := map2 (fun row f => map (fun v => v * f) row) j_nus
                     (map2 (fun x n => 4 * pi * x / n / h_cgs) x_sect nu)).
    set (I := integrate_array_by_blocks (mk_array2 (length t_rad) scaled) nu br).
    destruct (integrate_entries (mk_array2 (length t_rad) scaled) nu br) as [HsI HeI].
    fold I in HsI, HeI. simpl shape1 in HsI, HeI.
    replace (length br - 1)%nat with (length photo_ion_index) in HsI, HeI by lia.
    destruct (gshape_map_fin _ _ _ HsI) as [HsF HeF].
    exists (mk_fframe photo_ion_index (map (map Fin) I)).
    split; [|split; [reflexivity|split; [exact HsF|]]].
    + unfold calculate, calculate_from_dilute_bb. cbv zeta.
      fold nu x_sect j_nus scaled I.
      rewrite Hlen. simpl Nat.eqb at 1. cbv iota.
      rewrite (proj1 HsI), Nat.eqb_refl. reflexivity.
    + intros b c Hb Hc. cbv zeta. simpl fvalues. rewrite HeF by assumption.
      f_equal. rewrite HeI by assumption. unfold block_integral. f_equal.
      f_equal. unfold scaled.
      apply dilute_column; [exact Hj|unfold x_sect; apply length_map
                           |unfold nu; apply length_map|exact Hc].
  - intros Hlen. unfold calculate, calculate_from_dilute_bb. cbv zeta.
    destruct (Nat.eqb_spec (length br) 0) as [H0|H0]; [reflexivity|].
    match goal with
    | |- context [length (integrate_array_by_blocks ?f ?x ?b)] =>
        destruct (integrate_entries f x b) as [[HL _] _]; rewrite HL
    end.
    destruct (Nat.eqb_spec (length br - 1) (length photo_ion_index)); [lia|reflexivity].
  - (* estimator branch *)
    assert (Hlnf : length (norm_factor time_simulation volume) = length volume)
      by apply length_map.
    assert (Hall : forallb (fun row => Nat.eqb (length row)
                                         (length (norm_factor time_simulation volume)))
                     (values est) = true).
    { apply forallb_forall. intros row Hrow. apply Nat.eqb_eq. rewrite Hlnf.
      apply In_nth with (d := []) in Hrow as [i [Hi <-]]. apply Hrows, Hi. }
    set (g := mk_fframe (index est)
                (map (fun row => map2 fmul (map Fin row) (norm_factor time_simulation volume))
                   (values est))).
    exists g. split; [unfold calculate, scale_estimator; rewrite Hall; reflexivity|].
    split; [reflexivity|].
    split; [|split; [|reflexivity]].
    + split; [apply length_map|]. intros i Hi. simpl.
      rewrite (nth_map_in _ _ i [] []) by exact Hi.
      rewrite length_map2, length_map, Hlnf, Hrows by exact Hi. lia.
    + intros i j Hi Hj'. simpl.
      rewrite (nth_map_in _ _ i [] []) by exact Hi.
      rewrite (nth_map2 fmul _ _ j NaN NaN NaN)
        by (rewrite ?length_map, ?Hrows by exact Hi; lia).
      rewrite (nth_map_in Fin _ j NaN 0) by (rewrite Hrows by exact Hi; exact Hj').
      unfold norm_factor. rewrite (nth_map_in _ volume j NaN 0) by exact Hj'.
      rewrite pow_m1_nonzero.
      * reflexivity.
      * apply Qmult_nonzero; [apply Qmult_nonzero; [exact Ht|apply Hv, Hj']|].
        apply h_cgs_nonzero.
  - intros t vol j Hjv Hz. unfold norm_factor.
    rewrite (nth_map_in _ vol j NaN 0) by exact Hjv.
    apply pow_m1_zero. rewrite Hz. reflexivity.
Qed.

Lemma photo_ion_rate_branches_witness :
  let j_blues := fun (_ : list (key * (Q * Q))) (_ _ _ : list Q) => [[2]; [2]] in
  let xs := [([1;0;0]%nat, (1, 1)); ([1;0;0]%nat, (2, 1))] in
  let est := mk_frame [[1;0;0]%nat] [[3]] in
  (exists g,
     calculate j_blues xs None [] [0; 2]%nat [[1;0;0]%nat] [1] [1] = Ok g /\
     nth 0 (nth 0 (fvalues g) []) NaN
     = Fin (trapz [2 * (4 * pi * 1 / 1 / h_cgs); 2 * (4 * pi * 1 / 2 / h_cgs)] [1; 2])) /\
  (exists g,
     calculate j_blues xs (Some est) (norm_factor 1 [2]) [0; 2]%nat [[1;0;0]%nat] [1] [1]
     = Ok g /\
     nth 0 (nth 0 (fvalues g) []) NaN = Fin (3 * / (1 * 2 * h_cgs))).
Proof.
  intros j_blues xs est.
  pose proof (photo_ion_rate_branches j_blues xs [0; 2]%nat [[1;0;0]%nat] [1] [1] []
                est 1 [2]) as H.
  cbv zeta in H.
  destruct H as [[Hdil _] [Hest _]].
  - split; [reflexivity|]. intros r Hr. simpl in Hr.
    destruct r as [|[|r]]; [reflexivity|reflexivity|lia].
  - intros k Hk. simpl in Hk. destruct k as [|[|k]]; [discriminate|discriminate|lia].
  - discriminate.
  - intros j Hj. simpl in Hj. destruct j as [|j]; [discriminate|lia].
  - intros i Hi. simpl in Hi. destruct i as [|i]; [reflexivity|lia].
  - split.
    + destruct (Hdil eq_refl) as [g [Hg [_ [_ He]]]].
      exists g. split; [exact Hg|]. rewrite (He 0%nat 0%nat) by (simpl; lia).
      reflexivity.
    + destruct Hest as [g [Hg [_ [_ [He _]]]]].
      exists g. split; [exact Hg|]. apply (He 0%nat 0%nat); simpl; lia.
Defined.

End PhotoIonRateFacts.

(** ** Zeta-data fallback *)
Module ZetaFacts.
Import Index Zeta.
Local Open Scope nat_scope.

(** On a table whose index levels start at 1 the fallback does what the
    spec's scenario asks: zeta missing for ion (2, 2) of atoms [1; 2] is
    filled with 1.0, present entries are kept, the missing ion is logged. *)
Lemma zeta_fallback_scenario :
  filter_atomic_property
    (mk_zeta_table [1; 2] [1; 2; 3] [(0, 0); (0, 1); (1, 0); (1, 2)]
       [[5%Q]; [6%Q]; [7%Q]; [8%Q]]) [1; 2] =
  Returned (mk_zeta_result
    [([1; 1], [5%Q; 1%Q; 1%Q]); ([1; 2], [6%Q; 1%Q; 2%Q]);
     ([2; 1], [7%Q; 2%Q; 1%Q]); ([2; 2], [1%Q; 2%Q; 2%Q]);
     ([2; 3], [8%Q; 2%Q; 3%Q])]
    [[(2, 2)]]).
Proof. vm_compute. reflexivity. Qed.

(** C6: the fallback is not reached for every incomplete table.  The
    atomic and ion numbers are taken from the MultiIndex codes plus one,
    not from the index values; for a helium-only table (index levels [2]
    and [1; 2], rows (2, 1) and (2, 2), ion (2, 3) missing) with selected
    atoms [2], every row gets atomic number 1 and is filtered out, the
    completeness check passes on the empty table, and the result is an
    empty table with no warning: the present rows are dropped and the
    missing ion is not filled. *)
Theorem zeta_fallback_drops_rows :
  let t := mk_zeta_table [2] [1; 2] [(0, 0); (0, 1)] [[5%Q]; [6%Q]] in
  map (index_key t) (labels t) = [[2; 1]; [2; 2]] /\
  map atomic_number (rows_of t) = [1; 1] /\
  filter_atomic_property t [2] = Returned (mk_zeta_result [] []).
Proof. vm_compute. split; [reflexivity|split; reflexivity]. Qed.

End ZetaFacts.

(** ** Node evaluation and the atomic-mass node *)
Module GraphFacts.
Import Graph Flt AtomicMass.
Local Open Scope nat_scope.

(** The spec's staleness rule fails for [AtomicMass]: after an evaluation
    with selected atoms [1], a request with selected atoms [1; 2] (changed
    input) does not yield the masses of atoms [1; 2], which a fresh node
    computes from the same inputs. *)
Lemma atomic_mass_stale_counterexample :
  let ad : atom_data := [(1, 1%Q); (2, 4%Q)] in
  let n0 : node inputs atomic_mass_value := mk_node None None 0 in
  let n1 := snd (request inputs_eqb calculate n0 (ad, [1])) in
  fst (request inputs_eqb calculate n1 (ad, [1; 2])) <>
  fst (request inputs_eqb calculate n0 (ad, [1; 2])).
Proof. vm_compute. discriminate. Qed.

(** C9 (amended): a request whose inputs equal those of the last
    evaluation returns the cached output and leaves the node, and its call
    count, unchanged; a request with changed inputs invokes the compute
    function once more.  [AtomicMass.calculate], however, returns its
    stored output (wrapped in a 1-tuple) whenever one is stored, whatever
    [atomic_data] and [selected_atoms] are: once evaluated, its output is
    not recomputed from changed inputs. *)
Theorem node_request_staleness {I O} (eqb : I -> I -> bool) (calc : option O -> I -> option O)
    (n : node I O) (li inp : I) (o : O)
    (Hlast : last_inputs n = Some li) (Hattr : attr n = Some o) :
  (eqb li inp = true -> request eqb calc n inp = (Some o, n)) /\
  (eqb li inp = false -> calls (snd (request eqb calc n inp)) = S (calls n)) /\
  (forall v inp1 inp2, AtomicMass.calculate (Some v) inp1 = AtomicMass.calculate (Some v) inp2 /\
                       AtomicMass.calculate (Some v) inp1 = Some (Tuple1 v)).
Proof.
  unfold request. rewrite Hlast, Hattr. split; [|split].
  - intros ->. reflexivity.
  - intros ->. destruct (calc (Some o) inp); reflexivity.
  - intros v inp1 inp2. split; reflexivity.
Qed.

Lemma node_request_staleness_witness :
  let n : node AtomicMass.inputs atomic_mass_value :=
    mk_node (Some (Masses [Fin 1])) (Some ([(1, 1%Q)], [1])) 1 in
  request inputs_eqb AtomicMass.calculate n ([(1, 1%Q)], [1]) = (Some (Masses [Fin 1]), n).
Proof.
  intros n.
  destruct (node_request_staleness inputs_eqb AtomicMass.calculate n ([(1, 1%Q)], [1])
              ([(1, 1%Q)], [1]) (Masses [Fin 1]) eq_refl eq_refl) as [Hhit _].
  apply Hhit. reflexivity.
Defined.

End GraphFacts.

(** * Further properties of the code *)

(** ** Per-level outputs of [PhotoIonizationData] *)
Module PhotoIonizationLevels.
Import Index Frame PhotoIonization PhotoIonizationFacts.
Local Open Scope nat_scope.









End PhotoIonizationLevels.

(** ** Completeness check of the ionization data *)
Module IonDataFacts.
Import Index PhotoIonization PhotoIonizationFacts IonData.
Local Open Scope nat_scope.

(** Number of rows of atomic number [z]. *)
Definition atom_count (t : ionization_table) (z : nat) : nat :=
  length (filter (fun row => Nat.eqb (atomic_number row) z) t).

Lemma group_count_atom t z :
  group_count (map (fun row => [atomic_number row]) t) [z] = atom_count t z.
Proof.
  unfold group_count, atom_count. induction t as [|r t IH]; simpl; [reflexivity|].
  rewrite andb_true_r, (Nat.eqb_sym z).
  destruct (Nat.eqb (atomic_number r) z); simpl; [f_equal|]; exact IH.
Qed.

Lemma atom_count_filter t sel z :
  In z sel ->
  atom_count (filter (fun row => existsb (Nat.eqb (atomic_number row)) sel) t) z = atom_count t z.
Proof.
  intros Hz. unfold atom_count. induction t as [|r t IH]; simpl; [reflexivity|].
  destruct (existsb (Nat.eqb (atomic_number r)) sel) eqn:E; simpl.
  - destruct (Nat.eqb (atomic_number r) z); simpl; rewrite IH; reflexivity.
  - destruct (Nat.eqb (atomic_number r) z) eqn:Ez; [|exact IH].
    apply Nat.eqb_eq in Ez. exfalso.
    assert (He : existsb (Nat.eqb (atomic_number r)) sel = true)
      by (apply existsb_exists; exists z; split; [exact Hz|apply Nat.eqb_eq, Ez]).
    congruence.
Qed.

Lemma atom_count_pos t z : (exists r, In r t /\ atomic_number r = z) <-> 0 < atom_count t z.
Proof.
  unfold atom_count. split.
  - intros [r [Hr Hz]]. destruct (filter _ t) eqn:E; [|simpl; lia].
    assert (Hf : In r (filter (fun row => Nat.eqb (atomic_number row) z) t))
      by (apply filter_In; split; [exact Hr|apply Nat.eqb_eq, Hz]).
    rewrite E in Hf. contradiction.
  - destruct (filter _ t) as [|r l] eqn:E; simpl; [lia|]. intros _.
    assert (Hf : In r (filter (fun row => Nat.eqb (atomic_number row) z) t)) by (rewrite E; left; reflexivity).
    apply filter_In in Hf as [Hr Hz]. exists r. split; [exact Hr|apply Nat.eqb_eq, Hz].
Qed.

(** The pairs [(atomic number, count)] of [groupby(...).count()]. *)
Lemma counts_In t sel z c :
  let t' := filter (fun row => existsb (Nat.eqb (atomic_number row)) sel) t in
  let by_atom := map (fun row => [atomic_number row]) t' in
  In (z, c) (map (fun g => (nth 0 g O, group_count by_atom g)) (group_keys by_atom)) <->
  In z sel /\ 0 < atom_count t z /\ c = atom_count t z.
Proof.
  cbv zeta. rewrite in_map_iff. split.
  - intros [g [Hg Hin]]. apply group_keys_In, in_map_iff in Hin as [r [<- Hr]].
    injection Hg as <- <-. apply filter_In in Hr as [Hr Hm].
    apply existsb_exists in Hm as [z [Hz Hzr]]. apply Nat.eqb_eq in Hzr. rewrite Hzr in *.
    rewrite group_count_atom, atom_count_filter by exact Hz.
    split; [exact Hz|]. split; [|reflexivity]. apply atom_count_pos. eauto.
  - intros [Hz [Hpos ->]]. exists [z]. simpl.
    rewrite group_count_atom, atom_count_filter by exact Hz. split; [reflexivity|].
    apply group_keys_In, in_map_iff. apply atom_count_pos in Hpos as [r [Hr Hrz]].
    exists r. split; [rewrite Hrz; reflexivity|]. apply filter_In. split; [exact Hr|].
    apply existsb_exists. exists z. split; [exact Hz|apply Nat.eqb_eq, Hrz].
Qed.

Lemma combine_map_fst_snd {A B} (l : list (A * B)) : combine (map fst l) (map snd l) = l.
Proof. induction l as [|[a b] l IH]; simpl; [reflexivity|]. rewrite IH. reflexivity. Qed.

(** [IonizationData._filter_atomic_property] returns the rows of the
    selected atoms, in their order, exactly when every selected atom that
    has rows has as many rows as its atomic number; a selected atom with no
    row at all is not reported.  Otherwise it raises
    [IncompleteAtomicData] naming exactly the selected atoms with rows
    whose number of rows differs from the atomic number, with those
    numbers of rows. *)
Theorem ionization_data_completeness t selected_atoms :
  let t' := filter (fun row => existsb (Nat.eqb (atomic_number row)) selected_atoms) t in
  (filter_atomic_property t selected_atoms = Filtered t' <->
   forall z, In z selected_atoms -> 0 < atom_count t z -> atom_count t z = z) /\
  (forall zs cs, filter_atomic_property t selected_atoms = IncompleteAtomicData zs cs ->
   forall z c, In (z, c) (combine zs cs) <->
     In z selected_atoms /\ 0 < atom_count t z /\ c = atom_count t z /\ c <> z) /\
  (forall r, filter_atomic_property t selected_atoms = Filtered r -> r = t').
Proof.
  cbv zeta. unfold filter_atomic_property. cbv zeta.
  set (t' := filter _ t).
  set (counts := map (fun g => (nth 0 g O, group_count (map (fun row => [atomic_number row]) t') g))
                     (group_keys (map (fun row => [atomic_number row]) t'))).
  assert (Hc : forall z c, In (z, c) counts <->
             In z selected_atoms /\ 0 < atom_count t z /\ c = atom_count t z)
    by (intros z c; apply counts_In).
  assert (Hall : forallb (fun p => Nat.eqb (fst p) (snd p)) counts = true <->
                 forall z, In z selected_atoms -> 0 < atom_count t z -> atom_count t z = z).
  { rewrite forallb_forall. split.
    - intros H z Hz Hpos. symmetry. apply Nat.eqb_eq.
      apply (H (z, atom_count t z)), Hc. auto.
    - intros H [z c] Hin. apply Hc in Hin as [Hz [Hpos ->]]. simpl.
      apply Nat.eqb_eq. symmetry. apply H; assumption. }
  split; [|split].
  - destruct (forallb _ counts) eqn:E.
    + split; [intros _; apply Hall; reflexivity|reflexivity].
    + split; [discriminate|]. intros H. apply Hall in H. congruence.
  - intros zs cs. destruct (forallb _ counts); [discriminate|].
    intros H. injection H as <- <-. intros z c.
    rewrite combine_map_fst_snd, filter_In, Hc. simpl.
    rewrite negb_true_iff, Nat.eqb_neq. intuition congruence.
  - intros r. destruct (forallb _ counts); [|discriminate]. intros H. injection H as <-. reflexivity.
Qed.

End IonDataFacts.

Module LineIndexFacts.
Import Index Frame PhotoIonization PhotoIonizationFacts PhotoIonizationData
  IndexSetterFacts Levels LineIndex.
Local Open Scope nat_scope.

Lemma lookup_levels_index_gen ks s k j :
  lookup (combine ks (seq s (length ks))) k = Some j ->
  s <= j < s + length ks /\ nth (j - s) ks [] = k.
Proof.
  revert s. induction ks as [|a ks IH]; intros s H; [discriminate|].
  unfold lookup in H. simpl in H. destruct (key_eqb k a) eqn:E.
  - injection H as <-. apply key_eqb_eq in E as ->.
    rewrite Nat.sub_diag. simpl. split; [lia|reflexivity].
  - destruct (IH (S s) H) as [Hb Hn]. simpl.
    replace (j - s) with (S (j - S s)) by lia. split; [lia|exact Hn].
Qed.

Lemma lookup_levels_index_In ks s k :
  In k ks -> exists j, lookup (combine ks (seq s (length ks))) k = Some j.
Proof.
  revert s. induction ks as [|a ks IH]; intros s H; [contradiction|].
  unfold lookup. simpl. destruct (key_eqb k a) eqn:E; [simpl; eauto|].
  simpl in H. destruct H as [->|H]; [rewrite key_eqb_refl in E; discriminate|].
  exact (IH (S s) H).
Qed.

(** Positions of the level of each line, for either [droplevel]. *)
Lemma level_positions levels lines n :
  NoDup levels ->
  (forall line, In line lines -> In (droplevel line n) levels) ->
  exists r, loc_assoc (levels_index levels) (map (fun k => droplevel k n) lines) = Ok r /\
    length r = length lines /\
    forall j, j < length lines ->
      nth j r 0 < length levels /\
      nth (nth j r 0) levels [] = droplevel (nth j lines []) n /\
      forall i, i < length levels -> nth i levels [] = droplevel (nth j lines []) n ->
        i = nth j r 0.
Proof.
  intros Hnd Hcov.
  destruct (loc_assoc_total (levels_index levels) (map (fun k => droplevel k n) lines))
    as [r Hr].
  { apply forallb_forall. intros k Hk. apply in_map_iff in Hk as [line [<- Hl]].
    destruct (lookup_levels_index_In levels 0 (droplevel line n) (Hcov line Hl)) as [j Hj].
    unfold levels_index. rewrite Hj. reflexivity. }
  exists r. split; [exact Hr|].
  destruct (loc_assoc_nth _ _ _ Hr) as [Hlen Hnth]. rewrite length_map in Hlen.
  split; [exact Hlen|]. intros j Hj.
  specialize (Hnth j 0 ltac:(rewrite length_map; lia)).
  rewrite (FrameFacts.nth_map_in (fun k : key => droplevel k n) lines j [] []) in Hnth by lia.
  destruct (lookup_levels_index_gen _ _ _ _ Hnth) as [Hb Hn].
  rewrite Nat.sub_0_r in Hn.
  split; [lia|]. split; [exact Hn|].
  intros i Hi Hni. eapply NoDup_nth; [exact Hnd|exact Hi|lia|].
  rewrite Hni, Hn. reflexivity.
Qed.

(** [LinesLowerLevelIndex] and [LinesUpperLevelIndex]: when the level
    index is unique and holds the lower and upper level of every line, both
    return one integer per line, and that integer is the (only) position in
    the level index of the line's lower, respectively upper, level. *)
Theorem lines_level_index_correct (levels lines : list key)
    (Hnd : NoDup levels)
    (Hlower : forall line, In line lines -> In (droplevel line 3) levels)
    (Hupper : forall line, In line lines -> In (droplevel line 2) levels) :
  exists lower upper,
    lines_lower_level_index levels lines = Ok lower /\
    lines_upper_level_index levels lines = Ok upper /\
    length lower = length lines /\ length upper = length lines /\
    forall j, j < length lines ->
      nth j lower 0 < length levels /\
      nth (nth j lower 0) levels [] = droplevel (nth j lines []) 3 /\
      (forall i, i < length levels -> nth i levels [] = droplevel (nth j lines []) 3 ->
         i = nth j lower 0) /\
      nth j upper 0 < length levels /\
      nth (nth j upper 0) levels [] = droplevel (nth j lines []) 2 /\
      (forall i, i < length levels -> nth i levels [] = droplevel (nth j lines []) 2 ->
         i = nth j upper 0).
Proof.
  destruct (level_positions levels lines 3 Hnd Hlower) as [lo [Hlo [Hllo Hplo]]].
  destruct (level_positions levels lines 2 Hnd Hupper) as [up [Hup [Hlup Hpup]]].
  exists lo, up. unfold lines_lower_level_index, lines_upper_level_index.
  split; [exact Hlo|]. split; [exact Hup|]. split; [exact Hllo|]. split; [exact Hlup|].
  intros j Hj. destruct (Hplo j Hj) as [A1 [A2 A3]]. destruct (Hpup j Hj) as [B1 [B2 B3]].
  repeat split; assumption.
Qed.

Lemma lines_level_index_correct_witness :
  exists lower upper,
    lines_lower_level_index [[1;0;0]; [1;0;1]; [1;0;2]] [[1;0;0;2]; [1;0;1;2]] = Ok lower /\
    lines_upper_level_index [[1;0;0]; [1;0;1]; [1;0;2]] [[1;0;0;2]; [1;0;1;2]] = Ok upper /\
    lower = [0; 1] /\ upper = [2; 2].
Proof.
  destruct (lines_level_index_correct [[1;0;0]; [1;0;1]; [1;0;2]] [[1;0;0;2]; [1;0;1;2]])
    as [lower [upper [Hl [Hu _]]]].
  - repeat constructor; simpl; intuition discriminate.
  - simpl. intros line [<-|[<-|[]]]; simpl; auto.
  - simpl. intros line [<-|[<-|[]]]; simpl; auto.
  - exists lower, upper. split; [exact Hl|]. split; [exact Hu|].
    vm_compute in Hl, Hu. injection Hl as <-. injection Hu as <-. split; reflexivity.
Defined.

End LineIndexFacts.

Module CollDeexcFacts.
Import Index Frame IntegrateFacts FrameFacts Levels Flt CorrPhotoIon CorrPhotoIonFacts CollDeexc.
Local Open Scope Q_scope.

(** [CollDeexcRateCoeff.calculate]: when the Boltzmann factors of the
    lower and upper level of every transition are found, the result keeps
    the index and shape of [coll_exc_coeff]; wherever the upper factor
    [b_u] is non-zero, entry [(i, c)] is [c_lu * b_l / b_u], with [b_l] and
    [b_u] the factors (row of the lower and upper level of transition [i],
    column [c]), so that detailed balance [c_ul * b_u = c_lu * b_l] holds;
    where [b_u] is zero the entry is infinite with the sign of
    [c_lu * b_l], or NaN when that is zero. *)
Theorem coll_deexc_coeff_correct (thermal_lte_level_boltzmann_factor coll_exc_coeff : frame)
    (n_lower_prop n_upper_prop : list (list Q)) (R C : nat) :
  loc_rows thermal_lte_level_boltzmann_factor
    (map (fun k => droplevel k 3) (index coll_exc_coeff)) = Ok n_lower_prop ->
  loc_rows thermal_lte_level_boltzmann_factor
    (map (fun k => droplevel k 2) (index coll_exc_coeff)) = Ok n_upper_prop ->
  shape (values coll_exc_coeff) R C -> shape n_lower_prop R C -> shape n_upper_prop R C ->
  exists out,
    calculate thermal_lte_level_boltzmann_factor coll_exc_coeff = Ok out /\
    findex out = index coll_exc_coeff /\ gshape (fvalues out) R C /\
    forall i c, (i < R)%nat -> (c < C)%nat ->
      find_row (index thermal_lte_level_boltzmann_factor)
        (values thermal_lte_level_boltzmann_factor)
        (droplevel (nth i (index coll_exc_coeff) []) 3) = Some (nth i n_lower_prop []) /\
      find_row (index thermal_lte_level_boltzmann_factor)
        (values thermal_lte_level_boltzmann_factor)
        (droplevel (nth i (index coll_exc_coeff) []) 2) = Some (nth i n_upper_prop []) /\
      (~ entry n_upper_prop i c == 0 ->
       nth c (nth i (fvalues out) []) NaN
         = Fin (entry (values coll_exc_coeff) i c * entry n_lower_prop i c
                / entry n_upper_prop i c) /\
       entry (values coll_exc_coeff) i c * entry n_lower_prop i c
         / entry n_upper_prop i c * entry n_upper_prop i c
         == entry (values coll_exc_coeff) i c * entry n_lower_prop i c) /\
      (entry n_upper_prop i c == 0 ->
       nth c (nth i (fvalues out) []) NaN
         = inf_of (Qcompare (entry (values coll_exc_coeff) i c * entry n_lower_prop i c) 0)).
Proof.
  intros Hl Hu Hc Hnl Hnu.
  assert (HR : length (index coll_exc_coeff) = R).
  { pose proof (loc_rows_length _ _ _ Hl) as E. rewrite length_map in E.
    destruct Hnl as [Hn _]. lia. }
  destruct (shape_map2 Qmult _ _ R C Hc Hnl) as [Hs1 He1].
  destruct (gshape_map2 (fun a b => fdiv (Fin a) (Fin b)) _ _ R C 0 0 NaN Hs1 Hnu)
    as [Hs2 He2].
  eexists. unfold calculate. rewrite Hl, Hu. simpl.
  split; [reflexivity|]. split; [reflexivity|]. split; [exact Hs2|].
  intros i c Hi Hcc.
  pose proof (loc_rows_nth _ _ _ Hl i ltac:(rewrite length_map; lia)) as Fl.
  pose proof (loc_rows_nth _ _ _ Hu i ltac:(rewrite length_map; lia)) as Fu.
  rewrite (nth_map_in (fun k : key => droplevel k 3) _ i [] []) in Fl by lia.
  rewrite (nth_map_in (fun k : key => droplevel k 2) _ i [] []) in Fu by lia.
  split; [exact Fl|]. split; [exact Fu|].
  rewrite He2 by assumption.
  change (nth c (nth i (map2 (map2 Qmult) (values coll_exc_coeff) n_lower_prop) []) 0)
    with (entry (map2 (map2 Qmult) (values coll_exc_coeff) n_lower_prop) i c).
  rewrite He1 by assumption. split.
  - intros Hnz. rewrite fdiv_nonzero by exact Hnz. split; [reflexivity|].
    field. exact Hnz.
  - intros Hz. apply fdiv_zero, Hz.
Qed.

Lemma coll_deexc_coeff_correct_witness :
  exists out,
    calculate (mk_frame [[1;0;0]; [1;0;1]]%nat [[2]; [1 # 2]])
      (mk_frame [[1;0;0;1]]%nat [[3]]) = Ok out /\
    nth 0 (nth 0 (fvalues out) []) NaN = Fin (3 * 2 / (1 # 2)).
Proof.
  destruct (coll_deexc_coeff_correct (mk_frame [[1;0;0]; [1;0;1]]%nat [[2]; [1 # 2]])
    (mk_frame [[1;0;0;1]]%nat [[3]]) [[2]] [[1 # 2]] 1 1)
    as [out [Hout [_ [_ He]]]]; try reflexivity; try solve_shape.
  exists out. split; [exact Hout|].
  destruct (He 0%nat 0%nat) as [_ [_ [Hnz _]]]; [lia|lia|].
  apply Hnz. vm_compute. discriminate.
Defined.

End CollDeexcFacts.

Module YgIndexFacts.
Import Index Frame PhotoIonization PhotoIonizationData Yg FrameFacts Levels YgIndex.
Local Open Scope Q_scope.




End YgIndexFacts.

Module YgMergeIndex.
Import Index Frame PhotoIonization PhotoIonizationFacts Yg YgFacts.
Local Open Scope nat_scope.

Lemma key_lt_irrefl k : ~ key_lt k k.
Proof. unfold key_lt. rewrite key_ltb_irrefl. discriminate. Qed.

(** Two strictly sorted lists of keys with the same elements are equal. *)
Lemma sorted_ext l1 : forall l2,
  StronglySorted key_lt l1 -> StronglySorted key_lt l2 ->
  (forall x, In x l1 <-> In x l2) -> l1 = l2.
Proof.
  induction l1 as [|a l1 IH]; intros [|b l2] H1 H2 He.
  - reflexivity.
  - exfalso. apply (proj2 (He b)). left. reflexivity.
  - exfalso. apply (proj1 (He a)). left. reflexivity.
  - inversion H1 as [|? ? S1 F1]; inversion H2 as [|? ? S2 F2]; subst.
    rewrite Forall_forall in F1, F2.
    assert (Hab : a = b).
    { destruct (proj1 (He a) (or_introl eq_refl)) as [->|Ha]; [reflexivity|].
      destruct (proj2 (He b) (or_introl eq_refl)) as [->|Hb]; [reflexivity|].
      exfalso. apply (key_lt_irrefl a). eapply key_ltb_trans; [apply F1, Hb|apply F2, Ha]. }
    subst b. f_equal. apply IH; [exact S1|exact S2|].
    intros x. split; intros Hx.
    + destruct (proj1 (He x) (or_intror Hx)) as [<-|H]; [|exact H].
      exfalso. exact (key_lt_irrefl _ (F1 _ Hx)).
    + destruct (proj2 (He x) (or_intror Hx)) as [<-|H]; [|exact H].
      exfalso. exact (key_lt_irrefl _ (F2 _ Hx)).
Qed.

Lemma index_combine_first (s o : table) n :
  s <> [] -> o <> [] -> map fst s <> map fst o ->
  map fst (combine_first s o n) = group_keys (map fst s ++ map fst o).
Proof.
  intros Hs Ho Hne. destruct o as [|po o']; [contradiction|].
  destruct s as [|ps s']; [contradiction|].
  unfold combine_first. rewrite map_map. simpl (map fst (_ :: _)) at 3 4.
  rewrite map_id. unfold index_union.
  destruct (keys_eqb _ _) eqn:E; [apply keys_eqb_eq in E; contradiction|].
  reflexivity.
Qed.

(** [YgData.calculate] merges the tabulated and the approximate
    collision-strength tables with [combine_first].  When both are
    non-empty with unique, different indices, the merged index is the
    union of both, each key once, in ascending (lexicographic) order of
    the transition keys, whatever the order of the rows in either table;
    in particular it does not depend on which table is merged into which. *)
Theorem yg_merged_index (s o : table) (n : nat) :
  NoDup (map fst s) -> NoDup (map fst o) ->
  s <> [] -> o <> [] -> map fst s <> map fst o ->
  StronglySorted key_lt (map fst (combine_first s o n)) /\
  NoDup (map fst (combine_first s o n)) /\
  (forall k, In k (map fst (combine_first s o n)) <-> In k (map fst s) \/ In k (map fst o)) /\
  map fst (combine_first s o n) = map fst (combine_first o s n).
Proof.
  intros _ _ Hs Ho Hne. rewrite (index_combine_first s o n Hs Ho Hne).
  rewrite (index_combine_first o s n Ho Hs (fun H => Hne (eq_sym H))).
  split; [apply group_keys_sorted|]. split; [apply sorted_NoDup, group_keys_sorted|].
  split; [intros k; rewrite group_keys_In, in_app_iff; tauto|].
  apply sorted_ext; [apply group_keys_sorted|apply group_keys_sorted|].
  intros x. rewrite !group_keys_In, !in_app_iff. tauto.
Qed.

Lemma yg_merged_index_witness :
  map fst (combine_first [([1;0;0;2], [Some 1%Q])] [([1;0;0;1], [Some 2%Q])] 1)
    = [[1;0;0;1]; [1;0;0;2]] /\
  map fst (combine_first [([1;0;0;2], [Some 1%Q])] [([1;0;0;1], [Some 2%Q])] 1)
    = map fst (combine_first [([1;0;0;1], [Some 2%Q])] [([1;0;0;2], [Some 1%Q])] 1).
Proof.
  destruct (yg_merged_index [([1;0;0;2], [Some 1%Q])] [([1;0;0;1], [Some 2%Q])] 1)
    as [_ [_ [_ Hsym]]].
  - repeat constructor; simpl; tauto.
  - repeat constructor; simpl; tauto.
  - discriminate.
  - discriminate.
  - discriminate.
  - split; [reflexivity|exact Hsym].
Defined.

End YgMergeIndex.

Module AtomicMassFacts.
Import Flt AtomicMass.
Local Open Scope nat_scope.

Lemma filter_absent (ad : atom_data) z :
  ~ In z (map fst ad) -> filter (fun p => Nat.eqb z (fst p)) ad = [].
Proof.
  induction ad as [|[z' m'] ad IH]; simpl; intros H; [reflexivity|].
  destruct (Nat.eqb_spec z z') as [->|Hne]; [exfalso; auto|]. apply IH. auto.
Qed.

Lemma filter_unique (ad : atom_data) z m :
  NoDup (map fst ad) -> In (z, m) ad -> filter (fun p => Nat.eqb z (fst p)) ad = [(z, m)].
Proof.
  induction ad as [|[z' m'] ad IH]; simpl; intros Hnd Hin; [destruct Hin|].
  inversion Hnd as [|? ? Hnot Hnd']; subst.
  destruct Hin as [Heq|Hin].
  - injection Heq as -> ->. rewrite Nat.eqb_refl, filter_absent by exact Hnot.
    reflexivity.
  - destruct (Nat.eqb_spec z z') as [->|Hne].
    + exfalso. apply Hnot. apply in_map_iff. exists (z', m). auto.
    + apply IH; assumption.
Qed.

Lemma loc_mass_rows_flat (ad : atom_data) sel :
  (forall z, In z sel -> exists m, In (z, m) ad) ->
  loc_mass_rows ad sel
  = flat_map (fun z => map (fun p => Fin (snd p)) (filter (fun p => Nat.eqb z (fst p)) ad)) sel.
Proof.
  induction sel as [|z sel IH]; simpl; intros H; [reflexivity|].
  rewrite IH by (intros z0 Hz0; apply H; right; exact Hz0). f_equal.
  destruct (H z (or_introl eq_refl)) as [m Hm].
  destruct (filter (fun p => Nat.eqb z (fst p)) ad) eqn:E; [|reflexivity].
  exfalso. assert (Hf : In (z, m) (filter (fun p => Nat.eqb z (fst p)) ad))
    by (apply filter_In; split; [exact Hm|apply Nat.eqb_refl]).
  rewrite E in Hf. destruct Hf.
Qed.

(** [AtomicMass.calculate] without a stored output ([atomic_mass] is
    [None]), when every selected atomic number has a row in [atom_data]:
    it returns, for each selected atom in the order (and with the
    repetitions) of [selected_atoms], the masses of all rows of that atomic
    number.  When the atomic numbers of [atom_data] are unique, that is one
    mass per selected atom, the mass of its row. *)
Theorem atomic_mass_first_evaluation (ad : atom_data) (selected_atoms : list nat) :
  (forall z, In z selected_atoms -> exists m, In (z, m) ad) ->
  calculate None (ad, selected_atoms)
    = Some (Masses (flat_map (fun z => map (fun p => Fin (snd p))
                                         (filter (fun p => Nat.eqb z (fst p)) ad))
                      selected_atoms)) /\
  (NoDup (map fst ad) ->
   exists ms, calculate None (ad, selected_atoms) = Some (Masses (map Fin ms)) /\
     length ms = length selected_atoms /\
     forall j, j < length selected_atoms -> In (nth j selected_atoms 0, nth j ms 0%Q) ad).
Proof.
  intros Hall.
  assert (Hcalc : calculate None (ad, selected_atoms)
                  = Some (Masses (loc_mass_rows ad selected_atoms))).
  { unfold calculate, loc_mass. simpl.
    destruct selected_atoms as [|z sel]; [reflexivity|]. simpl.
    destruct (Hall z (or_introl eq_refl)) as [m Hm].
    assert (Hex : existsb (fun p => Nat.eqb z (fst p)) ad = true)
      by (apply existsb_exists; exists (z, m); split; [exact Hm|apply Nat.eqb_refl]).
    rewrite Hex. reflexivity. }
  rewrite Hcalc, loc_mass_rows_flat by exact Hall.
  split; [reflexivity|]. intros Hnd.
  clear Hcalc. induction selected_atoms as [|z sel IH].
  - exists []. split; [reflexivity|]. split; [reflexivity|]. simpl. lia.
  - destruct IH as [ms [Hms [Hl Hn]]]; [intros z0 Hz0; apply Hall; right; exact Hz0|].
    destruct (Hall z (or_introl eq_refl)) as [m Hm].
    exists (m :: ms). simpl. rewrite (filter_unique ad z m Hnd Hm).
    injection Hms as Hms. rewrite Hms. split; [reflexivity|].
    split; [simpl; lia|]. intros [|j] Hj; simpl; [exact Hm|].
    apply Hn. simpl in Hj. lia.
Qed.

Lemma atomic_mass_first_evaluation_witness :
  calculate None ([(1, 1%Q); (2, 4%Q); (2, 5%Q)], [2; 1])
    = Some (Masses [Fin 4; Fin 5; Fin 1]) /\
  exists ms, calculate None ([(1, 1%Q); (2, 4%Q)], [2; 1; 2]) = Some (Masses (map Fin ms)) /\
    ms = [4%Q; 1%Q; 4%Q].
Proof.
  split.
  - destruct (atomic_mass_first_evaluation [(1, 1%Q); (2, 4%Q); (2, 5%Q)] [2; 1])
      as [H _].
    + intros z Hz. simpl in Hz. destruct Hz as [<-|[<-|[]]].
      * exists 4%Q. simpl. auto.
      * exists 1%Q. simpl. auto.
    + exact (eq_trans H eq_refl).
  - destruct (atomic_mass_first_evaluation [(1, 1%Q); (2, 4%Q)] [2; 1; 2]) as [_ H].
    + intros z Hz. simpl in Hz. destruct Hz as [<-|[<-|[<-|[]]]].
      * exists 4%Q. simpl. auto.
      * exists 1%Q. simpl. auto.
      * exists 4%Q. simpl. auto.
    + destruct H as [ms [Hms [Hl Hn]]].
      * repeat constructor; simpl; intuition discriminate.
      * exists ms. split; [exact Hms|]. vm_compute in Hms.
        destruct ms as [|a [|b [|c [|d ms]]]]; try discriminate.
        injection Hms as Ha Hb Hc. subst. reflexivity.
Defined.

End AtomicMassFacts.

Module StimRecombFacts.
Import Index Frame IntegrateFacts FrameFacts StimRecomb.
Local Open Scope Q_scope.

(** [StimRecombRateCoeff.calculate]: without an estimator, when every
    level of the dilute-radiation table has a row in [phi_ik], the result
    keeps the index and shape of the dilute table and entry [(i, c)] is the
    dilute value times [phi_ik] of level [i] in shell [c].  With an
    estimator it keeps the estimator's index and multiplies shell [c] by
    the [c]-th normalisation factor, whatever the dilute values and
    [phi_ik] are. *)
Theorem stim_recomb_rate_coeff_branches (alpha_stim_dilute_bb : frame)
    (photo_ion_norm_factor : list Q) (phi_ik : frame) (R C : nat) :
  (forall phi, loc_rows phi_ik (index alpha_stim_dilute_bb) = Ok phi ->
   shape (values alpha_stim_dilute_bb) R C -> shape phi R C ->
   exists out, calculate alpha_stim_dilute_bb None photo_ion_norm_factor phi_ik = Ok out /\
     index out = index alpha_stim_dilute_bb /\ shape (values out) R C /\
     forall i c, (i < R)%nat -> (c < C)%nat ->
       find_row (index phi_ik) (values phi_ik) (nth i (index alpha_stim_dilute_bb) [])
         = Some (nth i phi []) /\
       entry (values out) i c = entry (values alpha_stim_dilute_bb) i c * entry phi i c) /\
  (forall est, shape (values est) R C -> length photo_ion_norm_factor = C ->
   forall dil phi', exists out, calculate dil (Some est) photo_ion_norm_factor phi' = Ok out /\
     index out = index est /\ shape (values out) R C /\
     forall i c, (i < R)%nat -> (c < C)%nat ->
       entry (values out) i c = entry (values est) i c * nth c photo_ion_norm_factor 0).
Proof.
  split.
  - intros phi Hphi Hd Hp.
    destruct (shape_map2 Qmult _ _ R C Hd Hp) as [Hs He].
    eexists. unfold calculate. rewrite Hphi. simpl.
    split; [reflexivity|]. split; [reflexivity|]. split; [exact Hs|].
    intros i c Hi Hc. split.
    + apply (loc_rows_nth _ _ _ Hphi). pose proof (loc_rows_length _ _ _ Hphi).
      destruct Hp as [Hl _]. lia.
    + apply He; assumption.
  - intros est Hest Hnf dil phi'.
    destruct (shape_map_row Qmult _ _ R C Hest Hnf) as [Hs He].
    eexists. split; [reflexivity|]. split; [reflexivity|]. split; [exact Hs|].
    exact He.
Qed.

Lemma stim_recomb_rate_coeff_branches_witness :
  exists out,
    calculate (mk_frame [[1;0;0]]%nat [[2; 3]]) None [5; 7]
      (mk_frame [[1;0;1]; [1;0;0]]%nat [[0; 0]; [1 # 2; 4]]) = Ok out /\
    values out = [[2 * (1 # 2); 3 * 4]].
Proof.
  destruct (stim_recomb_rate_coeff_branches (mk_frame [[1;0;0]]%nat [[2; 3]]) [5; 7]
              (mk_frame [[1;0;1]; [1;0;0]]%nat [[0; 0]; [1 # 2; 4]]) 1 2) as [Hdil _].
  destruct (Hdil [[1 # 2; 4]]) as [out [Hout _]]; [reflexivity|solve_shape|solve_shape|].
  exists out. split; [exact Hout|]. vm_compute in Hout. injection Hout as <-. reflexivity.
Defined.

End StimRecombFacts.

Module IntegrateLinear.
Import Integrate IntegrateFacts Frame FrameFacts.
Local Open Scope Q_scope.

Lemma trapz_add y1 : forall y2 x, length y1 = length y2 ->
  trapz (map2 Qplus y1 y2) x == trapz y1 x + trapz y2 x.
Proof.
  induction y1 as [|a l1 IH]; intros [|c l2] x Hl; simpl in Hl; try discriminate.
  - unfold map2. simpl. ring.
  - destruct l1 as [|b l1'], l2 as [|d l2']; simpl in Hl; try discriminate.
    + unfold map2. simpl. destruct x as [|x0 [|x1 xs]]; simpl; ring.
    + destruct x as [|x0 [|x1 xs]].
      * unfold map2. simpl. ring.
      * unfold map2. simpl. ring.
      * specialize (IH (d :: l2') (x1 :: xs) ltac:(simpl; lia)).
        change (map2 Qplus (a :: b :: l1') (c :: d :: l2'))
          with ((a + c) :: map2 Qplus (b :: l1') (d :: l2')).
        change (map2 Qplus (b :: l1') (d :: l2'))
          with ((b + d) :: map2 Qplus l1' l2') at 1.
        change (trapz ((a + c) :: (b + d) :: map2 Qplus l1' l2') (x0 :: x1 :: xs))
          with ((x1 - x0) * ((a + c) + (b + d)) / 2
                + trapz ((b + d) :: map2 Qplus l1' l2') (x1 :: xs)).
        change ((b + d) :: map2 Qplus l1' l2') with (map2 Qplus (b :: l1') (d :: l2')).
        rewrite IH. simpl. field.
Qed.

Lemma trapz_scale a y : forall x, trapz (map (Qmult a) y) x == a * trapz y x.
Proof.
  induction y as [|y0 l IH]; intros x; simpl; [ring|].
  destruct l as [|y1 l]; [destruct x as [|x0 [|x1 xs]]; simpl; ring|].
  destruct x as [|x0 [|x1 xs]]; simpl; try ring.
  specialize (IH (x1 :: xs)). simpl in IH. rewrite IH. field.
Qed.

Lemma firstn_map2 {A B C} (f : A -> B -> C) n a b :
  firstn n (map2 f a b) = map2 f (firstn n a) (firstn n b).
Proof.
  revert a b. induction n as [|n IH]; intros [|x a] [|y b]; unfold map2 in *; simpl;
    try reflexivity.
  f_equal. apply IH.
Qed.

Lemma skipn_map2 {A B C} (f : A -> B -> C) n a b :
  skipn n (map2 f a b) = map2 f (skipn n a) (skipn n b).
Proof.
  revert a b. induction n as [|n IH]; intros [|x a] [|y b]; unfold map2 in *; simpl;
    try reflexivity.
  - destruct (skipn n a); reflexivity.
  - apply IH.
Qed.

Lemma slice_map2 {A B C} (f : A -> B -> C) a b s e :
  slice (map2 f a b) s e = map2 f (slice a s e) (slice b s e).
Proof. unfold slice. rewrite skipn_map2. apply firstn_map2. Qed.

Lemma slice_map {A B} (f : A -> B) l s e : slice (map f l) s e = map f (slice l s e).
Proof. unfold slice. rewrite skipn_map. apply firstn_map. Qed.

Lemma length_slice_eq {A B} (a : list A) (b : list B) s e :
  length a = length b -> length (slice a s e) = length (slice b s e).
Proof. intros H. unfold slice. rewrite !length_firstn, !length_skipn, H. reflexivity. Qed.

Lemma column_sum (f g : array2) N C c :
  shape (rows f) N C -> shape (rows g) N C -> (c < C)%nat ->
  column (mk_array2 C (map2 (map2 Qplus) (rows f) (rows g))) c
  = map2 Qplus (column f c) (column g c).
Proof.
  intros [Hlf Hrf] [Hlg Hrg] Hc. unfold column. simpl.
  apply nth_ext with (d := 0) (d' := 0).
  - rewrite length_map, !length_map2, !length_map. reflexivity.
  - intros n Hn. rewrite length_map, length_map2 in Hn.
    rewrite (nth_map_in _ _ _ _ []) by (rewrite length_map2; exact Hn).
    rewrite (nth_map2 _ _ _ _ [] [] []) by lia.
    rewrite (nth_map2 Qplus (map (fun row => nth c row 0) (rows f))
               (map (fun row => nth c row 0) (rows g)) n 0 0 0) by (rewrite length_map; lia).
    rewrite !(nth_map_in _ _ _ _ []) by lia.
    apply nth_map2; [rewrite Hrf|rewrite Hrg]; lia.
Qed.

(** [integrate_array_by_blocks] is linear in [f]: for two arrays of the
    same shape, the block integrals of their entry-wise sum are the sums of
    their block integrals, and scaling [f] by a constant scales every block
    integral by it. *)
Theorem integrate_array_by_blocks_linear (f g : array2) (x : list Q)
    (block_references : list nat) (a : Q) (N C : nat) :
  shape1 f = C -> shape1 g = C -> shape (rows f) N C -> shape (rows g) N C ->
  let B := (length block_references - 1)%nat in
  let F := integrate_array_by_blocks f x block_references in
  let G := integrate_array_by_blocks g x block_references in
  let FG := integrate_array_by_blocks
              (mk_array2 C (map2 (map2 Qplus) (rows f) (rows g))) x block_references in
  let aF := integrate_array_by_blocks
              (mk_array2 C (map (map (Qmult a)) (rows f))) x block_references in
  shape FG B C /\ shape aF B C /\
  forall b c, (b < B)%nat -> (c < C)%nat ->
    entry FG b c == entry F b c + entry G b c /\ entry aF b c == a * entry F b c.
Proof.
  intros Hf Hg Sf Sg B F G FG aF.
  destruct (integrate_entries f x block_references) as [_ HeF].
  destruct (integrate_entries g x block_references) as [_ HeG].
  destruct (integrate_entries (mk_array2 C (map2 (map2 Qplus) (rows f) (rows g)))
              x block_references) as [SFG HeFG].
  destruct (integrate_entries (mk_array2 C (map (map (Qmult a)) (rows f)))
              x block_references) as [SaF HeaF].
  simpl in SFG, SaF, HeFG, HeaF.
  split; [exact SFG|]. split; [exact SaF|].
  intros b c Hb Hc. unfold F, G, FG, aF.
  assert (Hcf : (c < shape1 f)%nat) by lia. assert (Hcg : (c < shape1 g)%nat) by lia.
  rewrite HeF, HeG, HeFG, HeaF by assumption.
  unfold block_integral. split.
  - rewrite (column_sum f g N C c Sf Sg Hc), slice_map2. apply trapz_add.
    apply length_slice_eq. unfold column. rewrite !length_map.
    destruct Sf as [-> _], Sg as [-> _]. reflexivity.
  - assert (Hcol : column (mk_array2 C (map (map (Qmult a)) (rows f))) c
                   = map (Qmult a) (column f c)).
    { unfold column. simpl. rewrite !map_map. apply map_ext_in.
      intros row Hrow. destruct Sf as [Hl Hr].
      destruct (In_nth _ _ [] Hrow) as [k [Hk <-]].
      rewrite (nth_map_in _ _ _ _ 0) by (rewrite Hr; [exact Hc|lia]).
      reflexivity. }
    rewrite Hcol, slice_map. apply trapz_scale.
Qed.

Lemma integrate_array_by_blocks_linear_witness :
  entry (integrate_array_by_blocks
           (mk_array2 1 (map2 (map2 Qplus) [[1]; [3]; [5]] [[2]; [2]; [0]])) [0; 1; 3] [0; 3]%nat)
        0 0
  == entry (integrate_array_by_blocks (mk_array2 1 [[1]; [3]; [5]]) [0; 1; 3] [0; 3]%nat) 0 0
     + entry (integrate_array_by_blocks (mk_array2 1 [[2]; [2]; [0]]) [0; 1; 3] [0; 3]%nat) 0 0.
Proof.
  assert (S1 : shape [[1]; [3]; [5]] 3 1) by solve_shape.
  assert (S2 : shape [[2]; [2]; [0]] 3 1) by solve_shape.
  pose proof (integrate_array_by_blocks_linear (mk_array2 1 [[1]; [3]; [5]])
                (mk_array2 1 [[2]; [2]; [0]]) [0; 1; 3] [0; 3]%nat 2 3 1 eq_refl eq_refl S1 S2)
    as H.
  cbv zeta in H. destruct H as [_ [_ He]].
  apply (He 0%nat 0%nat); simpl; lia.
Defined.

End IntegrateLinear.
